(** * Shopping list server: the item store, the mutation routes and the
      WebSocket broadcast, embedded from the TypeScript sources

    Sources embedded here:
    - [server/storage.ts]    ([MemStorage]),
    - [server/routes.ts]     ([broadcastUpdate], [updateItemSchema],
                              [registerRoutes]),
    - [shared/schema.ts]     ([items], [insertItemSchema]),
    - [client/src/lib/categories.ts] ([categories], [categorizeItem]).

    Conventions.
    - A JavaScript [number] that holds an id is a [Z]; [NaN] is the [None] of
      an [option Z].  Ids are counted up from 1 and stay inside the range in
      which doubles are exact integers, so [currentId++] is [+ 1] on [Z].
    - A JavaScript string is a [string] of UTF-8 bytes.
    - [undefined] is the [None] of an [option].
    - An [async] method returns a [Promise]: [Resolved v] or [Rejected e].
    - The handlers run in a small state-and-writer monad [M]: the state is the
      [World] (the storage singleton and the [clients] set), the output is the
      list of [Event]s the handler performed, in program order. *)

From Stdlib Require Import ZArith List String Ascii Bool Lia Sorted.
From Stdlib Require Import Permutation.
Import ListNotations.

Local Open Scope string_scope.
Local Open Scope list_scope.
Local Open Scope Z_scope.

(* ===================================================================== *)
(** ** shared/schema.ts *)
(* ===================================================================== *)

(** [typeof items.$inferSelect]: the four columns of the [items] table. *)
Record Item : Type := mkItem {
  id : Z;
  name : string;
  category : string;
  completed : bool
}.

(** [z.infer<typeof insertItemSchema>]: [name] and [category] are required,
    [completed] has a column default and is optional. Fields are prefixed
    because a Rocq record field is a global projection. *)
Record InsertItem : Type := mkInsertItem {
  ins_name : string;
  ins_category : string;
  ins_completed : option bool
}.

(** [UpdateItemData] of storage.ts: three independently optional fields. *)
Record UpdateItemData : Type := mkUpdateItemData {
  upd_completed : option bool;
  upd_category : option string;
  upd_name : option string
}.

(* ===================================================================== *)
(** ** JavaScript [Map<number, Item>] *)
(* ===================================================================== *)

(** A [Map] iterates in insertion order; [set] on a key that is present
    replaces the value where it stands, [set] on a new key appends. *)
Module JsMap.

Definition t : Type := list (Z * Item).

Definition empty : t := [].

Fixpoint get (k : Z) (m : t) : option Item :=
  match m with
  | [] => None
  | (k', v) :: m' => if k' =? k then Some v else get k m'
  end.

Definition has (k : Z) (m : t) : bool :=
  match get k m with Some _ => true | None => false end.

Fixpoint set (k : Z) (v : Item) (m : t) : t :=
  match m with
  | [] => [(k, v)]
  | (k', v') :: m' =>
      if k' =? k then (k, v) :: m' else (k', v') :: set k v m'
  end.

Fixpoint delete (k : Z) (m : t) : t :=
  match m with
  | [] => []
  | (k', v') :: m' => if k' =? k then m' else (k', v') :: delete k m'
  end.

Definition clear (_ : t) : t := [].

Definition keys (m : t) : list Z := map fst m.

Definition values (m : t) : list Item := map snd m.

End JsMap.

(* ===================================================================== *)
(** ** server/storage.ts *)
(* ===================================================================== *)

(** The value of an [async] method once it has settled. *)
Inductive Promise (A : Type) : Type :=
| Resolved (a : A)
| Rejected (message : string).
Arguments Resolved {A} a.
Arguments Rejected {A} message.

Record MemStorage : Type := mkMemStorage {
  items : JsMap.t;
  currentId : Z
}.

Module Storage.

(** [constructor()] *)
Definition constructor : MemStorage :=
  {| items := JsMap.empty; currentId := 1 |}.

(** [async getItems()] *)
Definition getItems (this : MemStorage) : Promise (list Item) * MemStorage :=
  (Resolved (JsMap.values (items this)), this).

(** [async createItem(insertItem)]: [const id = this.currentId++] reads the
    counter and then increments it; [completed] is
    [insertItem.completed ?? false]. *)
Definition createItem (insertItem : InsertItem) (this : MemStorage)
  : Promise Item * MemStorage :=
  let id := currentId this in
  let item := {| id := id;
                 name := ins_name insertItem;
                 category := ins_category insertItem;
                 completed := match ins_completed insertItem with
                              | Some b => b
                              | None => false
                              end |} in
  (Resolved item,
   {| items := JsMap.set id item (items this); currentId := id + 1 |}).

(** The object spread of [updateItem]: a field of [data] that is not
    [undefined] overwrites, the others keep the value of [item]. *)
Definition merge (item : Item) (data : UpdateItemData) : Item :=
  {| id := id item;
     name := match upd_name data with Some n => n | None => name item end;
     category := match upd_category data with
                 | Some c => c
                 | None => category item
                 end;
     completed := match upd_completed data with
                  | Some b => b
                  | None => completed item
                  end |}.

(** [async updateItem(id, data)] *)
Definition updateItem (id : Z) (data : UpdateItemData) (this : MemStorage)
  : Promise Item * MemStorage :=
  match JsMap.get id (items this) with
  | None => (Rejected "Item not found", this)
  | Some item =>
      let updatedItem := merge item data in
      (Resolved updatedItem,
       {| items := JsMap.set id updatedItem (items this);
          currentId := currentId this |})
  end.

(** [async deleteItem(id)] *)
Definition deleteItem (id : Z) (this : MemStorage)
  : Promise unit * MemStorage :=
  if negb (JsMap.has id (items this)) then (Rejected "Item not found", this)
  else (Resolved tt,
        {| items := JsMap.delete id (items this);
           currentId := currentId this |}).

(** [async deleteAllItems()] *)
Definition deleteAllItems (this : MemStorage) : Promise unit * MemStorage :=
  (Resolved tt,
   {| items := JsMap.clear (items this); currentId := currentId this |}).

End Storage.

(** One call of a method of [IStorage]. *)
Inductive StoreOp : Type :=
| OpGetItems
| OpCreateItem (insertItem : InsertItem)
| OpUpdateItem (id : Z) (data : UpdateItemData)
| OpDeleteItem (id : Z)
| OpDeleteAllItems.

(** The storage after an operation, whatever the promise settled to. *)
Definition apply_op (op : StoreOp) (s : MemStorage) : MemStorage :=
  match op with
  | OpGetItems => snd (Storage.getItems s)
  | OpCreateItem insertItem => snd (Storage.createItem insertItem s)
  | OpUpdateItem id data => snd (Storage.updateItem id data s)
  | OpDeleteItem id => snd (Storage.deleteItem id s)
  | OpDeleteAllItems => snd (Storage.deleteAllItems s)
  end.

(** The id an operation allocates, if it is a create. *)
Definition allocated_by (op : StoreOp) (s : MemStorage) : list Z :=
  match op with
  | OpCreateItem insertItem =>
      match fst (Storage.createItem insertItem s) with
      | Resolved item => [id item]
      | Rejected _ => []
      end
  | _ => []
  end.

(** A process lifetime: the operations applied in order to a storage. *)
Fixpoint run_ops (ops : list StoreOp) (s : MemStorage) : MemStorage :=
  match ops with
  | [] => s
  | op :: ops' => run_ops ops' (apply_op op s)
  end.

(** The ids handed out during [ops], oldest first. *)
Fixpoint allocated_ids (ops : list StoreOp) (s : MemStorage) : list Z :=
  match ops with
  | [] => []
  | op :: ops' => allocated_by op s ++ allocated_ids ops' (apply_op op s)
  end.

(* ===================================================================== *)
(** ** Request data: JSON bodies, zod schemas, [parseInt] *)
(* ===================================================================== *)

(** [req.body] as [express.json()] leaves it. An object is the list of its
    own properties. *)
#[local] Unset Elimination Schemes.
Inductive JSON : Type :=
| JNull
| JBool (b : bool)
| JNumber (n : Z)
| JString (s : string)
| JArray (elements : list JSON)
| JObject (properties : list (string * JSON)).
#[local] Set Elimination Schemes.

(** [data[key]]: [None] is [undefined]. *)
Fixpoint prop (key : string) (properties : list (string * JSON)) : option JSON :=
  match properties with
  | [] => None
  | (k, v) :: rest => if String.eqb k key then Some v else prop key rest
  end.

(** The zod parsers the two schemas are built from; [None] is a parse
    failure. *)
Module Zod.

(** [z.string()] *)
Definition string (v : option JSON) : option String.string :=
  match v with
  | Some (JString s) => Some s
  | _ => None
  end.

(** [z.boolean()] *)
Definition boolean (v : option JSON) : option bool :=
  match v with
  | Some (JBool b) => Some b
  | _ => None
  end.

(** [.optional()]: [undefined] is accepted as it is. *)
Definition optional {A : Type} (inner : option JSON -> option A)
           (v : option JSON) : option (option A) :=
  match v with
  | None => Some None
  | Some _ => option_map Some (inner v)
  end.

End Zod.

(** [insertItemSchema.safeParse]. The schema is
    [createInsertSchema(items).pick({name, category, completed})]: drizzle-zod
    turns the [text(..).notNull()] columns into [z.string()] and the
    [boolean(..).notNull().default(false)] column into
    [z.boolean().optional()]. A [z.object] accepts objects only and drops the
    keys it does not know. *)
Definition insertItemSchema_safeParse (body : JSON) : option InsertItem :=
  match body with
  | JObject properties =>
      match Zod.string (prop "name" properties),
            Zod.string (prop "category" properties),
            Zod.optional Zod.boolean (prop "completed" properties) with
      | Some n, Some c, Some b =>
          Some {| ins_name := n; ins_category := c; ins_completed := b |}
      | _, _, _ => None
      end
  | _ => None
  end.

(** [updateItemSchema.safeParse] *)
Definition updateItemSchema_safeParse (body : JSON) : option UpdateItemData :=
  match body with
  | JObject properties =>
      match Zod.optional Zod.boolean (prop "completed" properties),
            Zod.optional Zod.string (prop "category" properties),
            Zod.optional Zod.string (prop "name" properties) with
      | Some b, Some c, Some n =>
          Some {| upd_completed := b; upd_category := c; upd_name := n |}
      | _, _, _ => None
      end
  | _ => None
  end.

(** The built-in [parseInt(string)] with no radix, on UTF-8 bytes. *)
Module ParseInt.

Definition byte (c : ascii) : Z := Z.of_N (N_of_ascii c).

(** TAB, LF, VT, FF, CR, SP *)
Definition is_ws1 (a : Z) : bool :=
  ((9 <=? a) && (a <=? 13)) || (a =? 32).

(** U+00A0 *)
Definition is_ws2 (a b : Z) : bool := (a =? 0xC2) && (b =? 0xA0).

(** U+1680, U+2000..U+200A, U+2028, U+2029, U+202F, U+205F, U+3000,
    U+FEFF *)
Definition is_ws3 (a b c : Z) : bool :=
  ((a =? 0xE1) && (b =? 0x9A) && (c =? 0x80))
  || ((a =? 0xE2) && (b =? 0x80)
      && (((0x80 <=? c) && (c <=? 0x8A)) || (c =? 0xA8) || (c =? 0xA9)
          || (c =? 0xAF)))
  || ((a =? 0xE2) && (b =? 0x81) && (c =? 0x9F))
  || ((a =? 0xE3) && (b =? 0x80) && (c =? 0x80))
  || ((a =? 0xEF) && (b =? 0xBB) && (c =? 0xBF)).

(** Leading white space and line terminators are skipped. *)
Fixpoint trimStart (s : string) : string :=
  match s with
  | String a s1 =>
      if is_ws1 (byte a) then trimStart s1
      else
        match s1 with
        | String b s2 =>
            if is_ws2 (byte a) (byte b) then trimStart s2
            else
              match s2 with
              | String c s3 =>
                  if is_ws3 (byte a) (byte b) (byte c) then trimStart s3
                  else s
              | EmptyString => s
              end
        | EmptyString => s
        end
  | EmptyString => s
  end.

Definition digit_value (c : ascii) : option Z :=
  let a := byte c in
  if (48 <=? a) && (a <=? 57) then Some (a - 48)
  else if (97 <=? a) && (a <=? 122) then Some (a - 97 + 10)
  else if (65 <=? a) && (a <=? 90) then Some (a - 65 + 10)
  else None.

(** The value of the longest prefix of digits of the radix; [acc] is [None]
    until a digit has been read. *)
Fixpoint digits (radix : Z) (s : string) (acc : option Z) : option Z :=
  match s with
  | String c s' =>
      match digit_value c with
      | Some d =>
          if d <? radix
          then digits radix s'
                      (Some (match acc with
                             | Some a => a * radix + d
                             | None => d
                             end))
          else acc
      | None => acc
      end
  | EmptyString => acc
  end.

Definition sign (s : string) : Z * string :=
  match s with
  | String "-"%char r => (-1, r)
  | String "+"%char r => (1, r)
  | _ => (1, s)
  end.

Definition radix (s : string) : Z * string :=
  match s with
  | String "0"%char (String "x"%char r) => (16, r)
  | String "0"%char (String "X"%char r) => (16, r)
  | _ => (10, s)
  end.

(** [None] is [NaN]. *)
Definition parseInt (s : string) : option Z :=
  let (sg, s2) := sign (trimStart s) in
  let (r, s3) := radix s2 in
  option_map (Z.mul sg) (digits r s3 None).

End ParseInt.

Definition parseInt := ParseInt.parseInt.

(** [isNaN(id)] *)
Definition isNaN (n : option Z) : bool :=
  match n with None => true | Some _ => false end.

(* ===================================================================== *)
(** ** server/routes.ts *)
(* ===================================================================== *)

(** [WebSocket.readyState] *)
Inductive ReadyState : Type := CONNECTING | OPEN | CLOSING | CLOSED.

Definition ReadyState_eqb (a b : ReadyState) : bool :=
  match a, b with
  | CONNECTING, CONNECTING | OPEN, OPEN | CLOSING, CLOSING | CLOSED, CLOSED =>
      true
  | _, _ => false
  end.

(** What the server sees of a socket object: its state, and whether
    [send] raises on it. *)
Record Socket : Type := mkSocket {
  readyState : ReadyState;
  send_throws : bool
}.

(** The message [broadcastUpdate] builds before it serializes it. *)
Record Message : Type := mkMessage {
  msg_type : string;
  msg_items : list Item
}.

(** The module state of routes.ts and storage.ts. [clients] is the
    [Set<WebSocket>] as the list of its handles in insertion order; [sockets]
    is the heap the handles point into. *)
Record World : Type := mkWorld {
  storage : MemStorage;
  clients : list nat;
  sockets : nat -> Socket
}.

(** What a handler does besides answering. *)
Inductive Event : Type :=
| Ev_broadcastUpdate                          (* broadcastUpdate() is entered *)
| Ev_storage (op : StoreOp)                   (* a method of [storage] is called *)
| Ev_stringify (m : Message)                  (* JSON.stringify(m) *)
| Ev_send (client : nat) (message : string)   (* client.send(message) is called *)
| Ev_console_error (label : string).          (* console.error(label, ..) *)

(** [res.json(..)], [res.status(..).json({message})], [res.status(..).end()] *)
Inductive ResBody : Type :=
| Json_items (l : list Item)
| Json_item (i : Item)
| Json_message (message : string)
| End_empty.

Record Response : Type := mkResponse {
  status : Z;
  body : ResBody
}.

(** State and output. *)
Definition M (A : Type) : Type := World -> A * World * list Event.

Definition ret {A : Type} (a : A) : M A := fun w => (a, w, []).

Definition bind {A B : Type} (m : M A) (k : A -> M B) : M B :=
  fun w =>
    let '(a, w1, e1) := m w in
    let '(b, w2, e2) := k a w1 in
    (b, w2, e1 ++ e2).

Declare Scope handler_scope.
Delimit Scope handler_scope with handler.
Notation "x <- m ;; k" := (bind m (fun x => k))
  (at level 61, m at next level, right associativity) : handler_scope.
Notation "m ;; k" := (bind m (fun _ => k))
  (at level 61, right associativity) : handler_scope.
Local Open Scope handler_scope.

Definition emit (e : Event) : M unit := fun w => (tt, w, [e]).

Definition get_clients : M (list nat) := fun w => (clients w, w, []).

Definition get_socket (client : nat) : M Socket :=
  fun w => (sockets w client, w, []).

(** [clients.add(ws)] *)
Definition clients_add (ws : nat) : M unit :=
  fun w =>
    (tt,
     {| storage := storage w;
        clients := if existsb (Nat.eqb ws) (clients w) then clients w
                   else clients w ++ [ws];
        sockets := sockets w |},
     []).

(** [clients.delete(ws)] *)
Definition clients_delete (ws : nat) : M unit :=
  fun w =>
    (tt,
     {| storage := storage w;
        clients := filter (fun c => negb (Nat.eqb ws c)) (clients w);
        sockets := sockets w |},
     []).

(** A call [storage.method(..)], awaited. *)
Definition call_storage {A : Type} (op : StoreOp)
           (method : MemStorage -> Promise A * MemStorage) : M (Promise A) :=
  fun w =>
    let (p, s) := method (storage w) in
    (p, {| storage := s; clients := clients w; sockets := sockets w |},
     [Ev_storage op]).

(** [Array.prototype.forEach] *)
Fixpoint forEach {A : Type} (l : list A) (f : A -> M unit) : M unit :=
  match l with
  | [] => ret tt
  | x :: l' => f x ;; forEach l' f
  end.

Definition res_json_items (l : list Item) : Response :=
  {| status := 200; body := Json_items l |}.
Definition res_json_item (i : Item) : Response :=
  {| status := 200; body := Json_item i |}.
Definition res_status_json (code : Z) (message : string) : Response :=
  {| status := code; body := Json_message message |}.
Definition res_status_end (code : Z) : Response :=
  {| status := code; body := End_empty |}.

Section Routes.

(** The built-in serializer. *)
Variable JSON_stringify : Message -> string.

(** The body of the [forEach] of [broadcastUpdate]: the [try] with the
    [readyState] test, and the [catch]. *)
Definition push (message : string) (client : nat) : M unit :=
  sk <- get_socket client ;;
  if ReadyState_eqb (readyState sk) OPEN then
    emit (Ev_send client message) ;;
    if send_throws sk then
      emit (Ev_console_error "WebSocket send error:") ;;
      clients_delete client
    else ret tt
  else ret tt.

(** [broadcastUpdate()]. [getItems] is an [async] method, so its body runs
    when it is called; the [then] callback runs as a microtask right after
    the calling handler, before any other request or socket event. *)
Definition broadcastUpdate : M unit :=
  emit Ev_broadcastUpdate ;;
  p <- call_storage OpGetItems Storage.getItems ;;
  match p with
  | Resolved items =>
      let m := {| msg_type := "UPDATE"; msg_items := items |} in
      emit (Ev_stringify m) ;;
      let message := JSON_stringify m in
      cs <- get_clients ;;
      forEach cs (push message)
  | Rejected _ => emit (Ev_console_error "Broadcast error:")
  end.

(** [wss.on('connection', ..)] *)
Definition on_connection (ws : nat) : M unit :=
  clients_add ws ;;
  broadcastUpdate.

(** [ws.on('error', ..)] *)
Definition on_error (ws : nat) : M unit :=
  emit (Ev_console_error "WebSocket error:") ;;
  clients_delete ws.

(** [ws.on('close', ..)] *)
Definition on_close (ws : nat) : M unit := clients_delete ws.

(** [app.get("/api/items")] *)
Definition get_items : M Response :=
  p <- call_storage OpGetItems Storage.getItems ;;
  match p with
  | Resolved items => ret (res_json_items items)
  | Rejected _ =>
      emit (Ev_console_error "Get items error:") ;;
      ret (res_status_json 500 "Failed to fetch items")
  end.

(** [app.post("/api/items")] *)
Definition post_items (req_body : JSON) : M Response :=
  match insertItemSchema_safeParse req_body with
  | None => ret (res_status_json 400 "Invalid item data")
  | Some data =>
      p <- call_storage (OpCreateItem data) (Storage.createItem data) ;;
      match p with
      | Resolved item =>
          broadcastUpdate ;;
          ret (res_json_item item)
      | Rejected _ =>
          emit (Ev_console_error "Create item error:") ;;
          ret (res_status_json 500 "Failed to create item")
      end
  end.

(** [app.patch("/api/items/:id")] *)
Definition patch_item (req_params_id : string) (req_body : JSON)
  : M Response :=
  match parseInt req_params_id with
  | None => ret (res_status_json 400 "Invalid ID")
  | Some id =>
      match updateItemSchema_safeParse req_body with
      | None => ret (res_status_json 400 "Invalid update data")
      | Some data =>
          p <- call_storage (OpUpdateItem id data)
                            (Storage.updateItem id data) ;;
          match p with
          | Resolved item =>
              broadcastUpdate ;;
              ret (res_json_item item)
          | Rejected message =>
              emit (Ev_console_error "Update item error:") ;;
              if String.eqb message "Item not found"
              then ret (res_status_json 404 "Item not found")
              else ret (res_status_json 500 "Failed to update item")
          end
      end
  end.

(** [app.delete("/api/items/:id")] *)
Definition delete_item (req_params_id : string) : M Response :=
  match parseInt req_params_id with
  | None => ret (res_status_json 400 "Invalid ID")
  | Some id =>
      p <- call_storage (OpDeleteItem id) (Storage.deleteItem id) ;;
      match p with
      | Resolved _ =>
          broadcastUpdate ;;
          ret (res_status_end 204)
      | Rejected message =>
          emit (Ev_console_error "Delete item error:") ;;
          if String.eqb message "Item not found"
          then ret (res_status_json 404 "Item not found")
          else ret (res_status_json 500 "Failed to delete item")
      end
  end.

(** [app.delete("/api/items")] *)
Definition delete_items : M Response :=
  p <- call_storage OpDeleteAllItems Storage.deleteAllItems ;;
  match p with
  | Resolved _ =>
      broadcastUpdate ;;
      ret (res_status_end 204)
  | Rejected _ =>
      emit (Ev_console_error "Delete all items error:") ;;
      ret (res_status_json 500 "Failed to delete all items")
  end.

(** The four requests of the mutation API. *)
Inductive Mutation : Type :=
| POST_items (req_body : JSON)
| PATCH_item (req_params_id : string) (req_body : JSON)
| DELETE_item (req_params_id : string)
| DELETE_items.

Definition handle (r : Mutation) : M Response :=
  match r with
  | POST_items b => post_items b
  | PATCH_item i b => patch_item i b
  | DELETE_item i => delete_item i
  | DELETE_items => delete_items
  end.

End Routes.

(** Reading the result of a handler run. *)
Definition response {A : Type} (r : A * World * list Event) : A :=
  fst (fst r).
Definition world_after {A : Type} (r : A * World * list Event) : World :=
  snd (fst r).
Definition events {A : Type} (r : A * World * list Event) : list Event :=
  snd r.

(* ===================================================================== *)
(** ** client/src/lib/categories.ts *)
(* ===================================================================== *)

Module Categories.

(** [Object.entries(categories)]: the keys are not integer-like, so the
    entries come in declaration order. *)
Definition categories : list (string * list string) :=
  [ ("frukt", ["äpple"; "banan"; "apelsin"; "päron"; "vindruvor"; "citron";
               "lime"; "jordgubbar"]);
    ("grönsaker", ["morot"; "potatis"; "tomat"; "lök"; "sallad"; "gurka";
                   "broccoli"]);
    ("mejeri", ["mjölk"; "ost"; "yoghurt"; "smör"; "grädde"; "ägg"]);
    ("kött", ["kyckling"; "nötkött"; "fläsk"; "fisk"; "lax"; "räkor"]);
    ("skafferi", ["ris"; "pasta"; "bröd"; "mjöl"; "socker"; "salt"; "olja"]);
    ("snacks", ["chips"; "kakor"; "godis"; "choklad"; "nötter"]);
    ("dryck", ["vatten"; "juice"; "läsk"; "kaffe"; "te"]);
    ("hushåll", ["tvål"; "papper"; "tvättmedel"; "soppåsar"; "rengöring"]);
    ("övrigt", []) ].

(** [s.includes(item)] *)
Fixpoint includes (s item : string) : bool :=
  if String.prefix item s then true
  else
    match s with
    | EmptyString => false
    | String _ s' => includes s' item
    end.

(** [items.some(item => lowercaseName.includes(item))] *)
Definition some_included (lowercaseName : string) (items : list string)
  : bool :=
  existsb (fun item => includes lowercaseName item) items.

(** The [for .. of] loop with its early [return], then the final
    [return "övrigt"]. *)
Fixpoint for_of (entries : list (string * list string))
         (lowercaseName : string) : string :=
  match entries with
  | [] => "övrigt"
  | (category, items) :: rest =>
      if some_included lowercaseName items then category
      else for_of rest lowercaseName
  end.

Section Categorize.

(** The built-in [String.prototype.toLowerCase]. *)
Variable toLowerCase : string -> string.

Definition categorizeItem (name : string) : string :=
  let lowercaseName := toLowerCase name in
  for_of categories lowercaseName.

End Categorize.

(** [toLowerCase] on Basic Latin and on the Latin-1 letters (the two-byte
    sequences [C3 80] .. [C3 9E] without the multiplication sign); the
    instance the examples below run with. *)
Fixpoint latin1_toLowerCase (s : string) : string :=
  match s with
  | EmptyString => EmptyString
  | String a s1 =>
      let x := ParseInt.byte a in
      if (65 <=? x) && (x <=? 90)
      then String (ascii_of_N (Z.to_N (x + 32))) (latin1_toLowerCase s1)
      else
        match s1 with
        | String b s2 =>
            let y := ParseInt.byte b in
            if (x =? 0xC3) && (0x80 <=? y) && (y <=? 0x9E)
               && negb (y =? 0x97)
            then String a (String (ascii_of_N (Z.to_N (y + 32)))
                                  (latin1_toLowerCase s2))
            else String a (latin1_toLowerCase s1)
        | EmptyString => String a EmptyString
        end
  end.

End Categories.

(* ===================================================================== *)
(** ** Built-ins the client uses: number to string, [trim] *)
(* ===================================================================== *)

Module JsString.

Definition digit_char (d : Z) : ascii := ascii_of_N (Z.to_N (48 + d)).

(** The decimal digits of [n >= 0] in front of [rest], most significant
    first; [fuel] bounds the number of digits. *)
Fixpoint decimal (fuel : nat) (n : Z) (rest : string) : string :=
  match fuel with
  | O => rest
  | S fuel' =>
      if n <? 10 then String (digit_char n) rest
      else decimal fuel' (n / 10) (String (digit_char (n mod 10)) rest)
  end.

(** [String(n)] and [`${n}`] for an integer [n] of magnitude below 1e21:
    the decimal digits, after a minus sign when [n] is negative. A number
    has no more decimal digits than binary ones. *)
Definition Number_toString (n : Z) : string :=
  if n <? 0
  then String "-"%char (decimal (S (Z.to_nat (Z.log2 (- n)))) (- n) EmptyString)
  else decimal (S (Z.to_nat (Z.log2 n))) n EmptyString.

(** The string is white space and line terminators only. *)
Definition all_ws (s : string) : bool :=
  match ParseInt.trimStart s with
  | EmptyString => true
  | String _ _ => false
  end.

(** [String.prototype.trimEnd]: the longest suffix of white space goes. *)
Fixpoint trimEnd (s : string) : string :=
  match s with
  | EmptyString => EmptyString
  | String c s' => if all_ws s then EmptyString else String c (trimEnd s')
  end.

(** [String.prototype.trim] *)
Definition trim (s : string) : string := trimEnd (ParseInt.trimStart s).

End JsString.

(* ===================================================================== *)
(** ** client/src/pages/home.tsx *)
(* ===================================================================== *)

(** The arguments of a call [apiRequest(method, url, data)]. *)
Record ApiRequest : Type := mkApiRequest {
  method : string;
  url : string;
  data : option JSON
}.

Module Client.
Import JsString.


(** [updateCategoryMutation.mutationFn] *)
Definition updateCategoryMutation (id : Z) (category : string) : ApiRequest :=
  {| method := "PATCH";
     url := ("/api/items/" ++ Number_toString id)%string;
     data := Some (JObject [("category", JString category)]) |}.



(** [deleteAllMutation.mutationFn] *)
Definition deleteAllMutation : ApiRequest :=
  {| method := "DELETE"; url := "/api/items"; data := None |}.

(** [handleDragEnd]: [over] is [None] when the item is dropped on nothing;
    [items.find] with [item.id === itemId] finds nothing when [itemId] is
    [NaN]. *)
Definition handleDragEnd (items : list Item) (active_id : string)
           (over_id : option string) : option ApiRequest :=
  match over_id with
  | None => None
  | Some newCategory =>
      match parseInt active_id with
      | None => None
      | Some itemId =>
          match find (fun item => id item =? itemId) items with
          | Some item =>
              if negb (String.eqb (category item) newCategory)
              then Some (updateCategoryMutation itemId newCategory)
              else None
          | None => None
          end
      end
  end.


(** [orderedCategories] *)
Definition orderedCategories : list string := map fst Categories.categories.

(** [acc[category] = value] on an object with string keys. *)
Fixpoint obj_set (acc : list (string * list Item)) (key : string)
         (value : list Item) : list (string * list Item) :=
  match acc with
  | [] => [(key, value)]
  | (k, v) :: acc' =>
      if String.eqb k key then (k, value) :: acc'
      else (k, v) :: obj_set acc' key value
  end.

(** [groupedItems[category]]; a card is only made for a key of
    [groupedItems]. *)
Fixpoint obj_get (acc : list (string * list Item)) (key : string)
  : list Item :=
  match acc with
  | [] => []
  | (k, v) :: acc' => if String.eqb k key then v else obj_get acc' key
  end.

(** [groupedItems]: the [reduce] over [orderedCategories]. *)
Definition groupedItems (items : list Item) : list (string * list Item) :=
  fold_left
    (fun acc categoryKey =>
       obj_set acc categoryKey
               (filter (fun item => String.eqb (category item) categoryKey)
                       items))
    orderedCategories [].

(** The cards of the page: a category with its items, for the categories
    that have items, in the order of [orderedCategories]. *)
Definition cards (items : list Item) : list (string * list Item) :=
  map (fun categoryKey =>
         (categoryKey, obj_get (groupedItems items) categoryKey))
      (filter (fun categoryKey =>
                 (0 <? Z.of_nat (List.length
                                   (obj_get (groupedItems items) categoryKey))))
              orderedCategories).

Section WithLowerCase.

Variable toLowerCase : string -> string.

(** [createMutation.mutationFn] *)
Definition createMutation (name : string) : ApiRequest :=
  let category := Categories.categorizeItem toLowerCase name in
  {| method := "POST";
     url := "/api/items";
     data := Some (JObject [("name", JString name);
                            ("category", JString category);
                            ("completed", JBool false)]) |}.

(** [onSubmit]: the empty string is falsy. *)
Definition onSubmit (name : string) : option ApiRequest :=
  if String.eqb (trim name) EmptyString then None
  else Some (createMutation name).

End WithLowerCase.

End Client.

(* ===================================================================== *)
(** ** Vocabulary of the properties *)
(* ===================================================================== *)

Module Ascending.

(** [start; start + 1; ..], [n] numbers. *)
Fixpoint iota (start : Z) (n : nat) : list Z :=
  match n with
  | O => []
  | S n' => start :: iota (start + 1) n'
  end.

Definition mem (l : list Z) (x : Z) : bool := existsb (Z.eqb x) l.

End Ascending.

(** What every storage built by the constructor and the five methods
    satisfies: the keys ascend, they are ids that were handed out, and
    every item is filed under its own id. *)
Record Inv (s : MemStorage) : Prop := mkInv {
  inv_counter : 1 <= currentId s;
  inv_sorted : StronglySorted Z.lt (JsMap.keys (items s));
  inv_bound : Forall (fun k => 1 <= k < currentId s) (JsMap.keys (items s));
  inv_id : Forall (fun e => id (snd e) = fst e) (items s)
}.

(** Which tracked sockets a broadcast reaches, by the heap of sockets. *)
Definition is_open (sk : nat -> Socket) (c : nat) : bool :=
  ReadyState_eqb (readyState (sk c)) OPEN.

Definition fails (sk : nat -> Socket) (c : nat) : bool :=
  is_open sk c && send_throws (sk c).

(** What one turn of the [forEach] of [broadcastUpdate] does. *)
Definition push_events (sk : nat -> Socket) (message : string) (c : nat)
  : list Event :=
  if is_open sk c then
    Ev_send c message
    :: (if send_throws (sk c)
        then [Ev_console_error "WebSocket send error:"] else [])
  else [].

Definition is_send_to (c : nat) (e : Event) : bool :=
  match e with Ev_send d _ => Nat.eqb c d | _ => false end.

Definition is_console_error (e : Event) : bool :=
  match e with Ev_console_error _ => true | _ => false end.

Definition is_broadcast (e : Event) : bool :=
  match e with Ev_broadcastUpdate => true | _ => false end.

Definition is_storage_call (e : Event) : bool :=
  match e with Ev_storage _ => true | _ => false end.

Definition is_stringify (e : Event) : bool :=
  match e with Ev_stringify _ => true | _ => false end.

Definition count (p : Event -> bool) (evs : list Event) : nat :=
  List.length (filter p evs).

(** The message a broadcast serializes. *)
Definition snapshot (w : World) : Message :=
  {| msg_type := "UPDATE";
     msg_items := JsMap.values (items (storage w)) |}.

(** The world with another storage. *)
Definition with_storage (w : World) (s : MemStorage) : World :=
  {| storage := s; clients := clients w; sockets := sockets w |}.

(** The request does not get to change the storage: its body is not valid,
    its id does not parse, or the storage has no item of that id. *)
Definition request_fails (r : Mutation) (s : MemStorage) : bool :=
  match r with
  | POST_items b =>
      match insertItemSchema_safeParse b with
      | Some _ => false
      | None => true
      end
  | PATCH_item i b =>
      match parseInt i, updateItemSchema_safeParse b with
      | Some k, Some _ => negb (JsMap.has k (items s))
      | _, _ => true
      end
  | DELETE_item i =>
      match parseInt i with
      | Some k => negb (JsMap.has k (items s))
      | None => true
      end
  | DELETE_items => false
  end.

(** [req.body[key]] *)
Definition field (key : string) (req_body : JSON) : option JSON :=
  match req_body with
  | JObject properties => prop key properties
  | _ => None
  end.

Definition is_text (v : option JSON) : bool :=
  match v with Some (JString _) => true | _ => false end.

(** The answer reports a mutation that was carried out. *)
Definition is_success (res : Response) : bool :=
  (status res =? 200) || (status res =? 204).

(** No keyword of the entry occurs in the name. *)
Definition no_match (lowercaseName : string)
           (entry : string * list string) : Prop :=
  Categories.some_included lowercaseName (snd entry) = false.

(** A store with two items, the second completed, for the examples. *)
Definition two_items : MemStorage :=
  run_ops [OpCreateItem (mkInsertItem "mjölk" "mejeri" None);
           OpCreateItem (mkInsertItem "bröd" "skafferi" (Some true))]
          Storage.constructor.

Module Examples.

(** A serializer to run the handlers with: it writes an item as its id
    and its name. The theorems hold for every serializer. *)
Definition digit (n : Z) : string :=
  String (ascii_of_N (Z.to_N (48 + n))) EmptyString.

Definition show_id (n : Z) : string :=
  if n <? 10 then digit n
  else (digit (n / 10 mod 10) ++ digit (n mod 10))%string.

Definition show_item (i : Item) : string :=
  (show_id (id i) ++ ":" ++ name i)%string.

Definition stringify (m : Message) : string :=
  (msg_type m ++ " [" ++ String.concat "," (map show_item (msg_items m))
   ++ "]")%string.

(** Three tracked sockets: 1 is open, 2 is closing, 3 is open and its
    [send] raises. *)
Definition sockets (c : nat) : Socket :=
  match c with
  | 1%nat => mkSocket OPEN false
  | 2%nat => mkSocket CLOSING false
  | 3%nat => mkSocket OPEN true
  | _ => mkSocket CLOSED false
  end.

(** The server right after it has started. *)
Definition fresh : World := mkWorld Storage.constructor [] sockets.

(** Two items stored, three sockets tracked. *)
Definition busy : World := mkWorld two_items [1; 2; 3]%nat sockets.

Definition body_completed : JSON := JObject [("completed", JBool true)].

Definition body_empty_name : JSON :=
  JObject [("name", JString EmptyString); ("category", JString "övrigt")].

End Examples.

(* ===================================================================== *)
(** ** Reference models for the storage *)
(* ===================================================================== *)

(** The item [createItem] builds when the counter stands at [next]. *)
Definition new_item (next : Z) (insertItem : InsertItem) : Item :=
  {| id := next;
     name := ins_name insertItem;
     category := ins_category insertItem;
     completed := match ins_completed insertItem with
                  | Some b => b
                  | None => false
                  end |}.

(** The storage as a plain list of items and a counter: what one operation
    does to the list that [getItems] shows. *)
Definition list_step (st : list Item * Z) (op : StoreOp) : list Item * Z :=
  let (l, next) := st in
  match op with
  | OpGetItems => (l, next)
  | OpCreateItem insertItem => (l ++ [new_item next insertItem], next + 1)
  | OpUpdateItem k data =>
      (map (fun v => if id v =? k then Storage.merge v data else v) l, next)
  | OpDeleteItem k => (filter (fun v => negb (id v =? k)) l, next)
  | OpDeleteAllItems => ([], next)
  end.

(** The storage as a finite map: what one operation does to the item found
    under the id [k]. *)
Definition lookup_step (s : MemStorage) (op : StoreOp) (k : Z) : option Item :=
  match op with
  | OpGetItems => JsMap.get k (items s)
  | OpCreateItem insertItem =>
      if k =? currentId s then Some (new_item (currentId s) insertItem)
      else JsMap.get k (items s)
  | OpUpdateItem i data =>
      if k =? i
      then option_map (fun item => Storage.merge item data)
                      (JsMap.get k (items s))
      else JsMap.get k (items s)
  | OpDeleteItem i => if k =? i then None else JsMap.get k (items s)
  | OpDeleteAllItems => None
  end.

(** Two updates in a row as one: a field of the later update wins. *)
Definition overlay (first later : UpdateItemData) : UpdateItemData :=
  {| upd_completed := match upd_completed later with
                      | Some b => Some b
                      | None => upd_completed first
                      end;
     upd_category := match upd_category later with
                     | Some c => Some c
                     | None => upd_category first
                     end;
     upd_name := match upd_name later with
                 | Some n => Some n
                 | None => upd_name first
                 end |}.

(* ===================================================================== *)
(** ** The server as a whole *)
(* ===================================================================== *)

(** What reaches the server between two turns of the event loop: a request,
    an event of a socket, or the sockets changing state on their own. *)
Inductive Input : Type :=
| Request (r : Mutation)
| GetItems
| Connection (ws : nat)
| SocketError (ws : nat)
| SocketClose (ws : nat)
| SocketsChange (sk : nat -> Socket).

(** The sockets are what the network makes of them. *)
Definition set_sockets (sk : nat -> Socket) : M unit :=
  fun w => (tt, {| storage := storage w; clients := clients w; sockets := sk |},
            []).

Definition serve (JSON_stringify : Message -> string) (i : Input) : M unit :=
  match i with
  | Request r => bind (handle JSON_stringify r) (fun _ => ret tt)
  | GetItems => bind get_items (fun _ => ret tt)
  | Connection ws => on_connection JSON_stringify ws
  | SocketError ws => on_error ws
  | SocketClose ws => on_close ws
  | SocketsChange sk => set_sockets sk
  end.

(** The modules as they are loaded: [new MemStorage()], [new Set()]. *)
Definition boot (sk : nat -> Socket) : World :=
  {| storage := Storage.constructor; clients := []; sockets := sk |}.

(** The calls of storage methods in a trace, in order. *)
Definition storage_calls (evs : list Event) : list StoreOp :=
  flat_map (fun e => match e with Ev_storage op => [op] | _ => [] end) evs.

(** What [updateItemSchema] accepts for its fields. *)
Definition is_object (v : JSON) : bool :=
  match v with JObject _ => true | _ => false end.

Definition boolean_or_absent (v : option JSON) : bool :=
  match v with None | Some (JBool _) => true | _ => false end.

Definition text_or_absent (v : option JSON) : bool :=
  match v with None | Some (JString _) => true | _ => false end.

(** The string cannot continue a number: it is empty, or its first
    character is no decimal digit and no [x]. *)
Definition ends_number (suffix : string) : bool :=
  match suffix with
  | EmptyString => true
  | String c _ =>
      let a := ParseInt.byte c in
      negb ((48 <=? a) && (a <=? 57)) && negb (a =? 120) && negb (a =? 88)
  end.

(** The items of the list that carry the category [key]. *)
Definition of_category (items : list Item) (key : string) : list Item :=
  filter (fun item => String.eqb (category item) key) items.

(* ===================================================================== *)
(** * Properties *)
(* ===================================================================== *)

(** ** The [Map] operations *)

Module JsMapFacts.
Import JsMap.

Lemma get_set_same (k : Z) (v : Item) (m : t) : get k (set k v m) = Some v.
Proof.
  induction m as [| [k' v'] m IH]; simpl.
  - now rewrite Z.eqb_refl.
  - destruct (k' =? k) eqn:E; simpl.
    + now rewrite Z.eqb_refl.
    + now rewrite E.
Qed.

Lemma get_set_other (k k' : Z) (v : Item) (m : t) :
  k <> k' -> get k' (set k v m) = get k' m.
Proof.
  intros Hne. induction m as [| [k0 v0] m IH]; simpl.
  - destruct (k =? k') eqn:E; [apply Z.eqb_eq in E; contradiction | easy].
  - destruct (k0 =? k) eqn:E; simpl.
    + apply Z.eqb_eq in E; subst k0.
      destruct (k =? k') eqn:E'; [apply Z.eqb_eq in E'; contradiction | easy].
    + now rewrite IH.
Qed.

Lemma get_None_keys (k : Z) (m : t) : get k m = None <-> ~ In k (keys m).
Proof.
  induction m as [| [k' v'] m IH]; simpl.
  - tauto.
  - destruct (k' =? k) eqn:E.
    + apply Z.eqb_eq in E. split; [discriminate | intros H; elim H; auto].
    + apply Z.eqb_neq in E. rewrite IH. tauto.
Qed.

Lemma has_keys (k : Z) (m : t) : has k m = true <-> In k (keys m).
Proof.
  unfold has. destruct (get k m) eqn:E.
  - split; [intros _ | easy].
    destruct (in_dec Z.eq_dec k (keys m)) as [H | H]; [easy |].
    apply get_None_keys in H. congruence.
  - split; [discriminate |]. intros H. apply get_None_keys in E. contradiction.
Qed.

Lemma get_Some_In (k : Z) (v : Item) (m : t) :
  get k m = Some v -> In (k, v) m.
Proof.
  induction m as [| [k' v'] m IH]; simpl; [discriminate |].
  destruct (k' =? k) eqn:E.
  - apply Z.eqb_eq in E. intros [= ->]. subst. now left.
  - intros H. right. now apply IH.
Qed.

Lemma In_get_Some (k : Z) (v : Item) (m : t) :
  NoDup (keys m) -> In (k, v) m -> get k m = Some v.
Proof.
  induction m as [| [k' v'] m IH]; simpl; [easy |].
  intros Hnd [H | H].
  - injection H as -> ->. now rewrite Z.eqb_refl.
  - inversion Hnd as [| ? ? Hnotin Hnd']; subst.
    destruct (k' =? k) eqn:E.
    + apply Z.eqb_eq in E. subst k'. elim Hnotin.
      change k with (fst (k, v)). now apply in_map.
    + now apply IH.
Qed.

Lemma keys_set_present (k : Z) (v : Item) (m : t) :
  In k (keys m) -> keys (set k v m) = keys m.
Proof.
  induction m as [| [k' v'] m IH]; simpl; [easy |].
  intros H. destruct (k' =? k) eqn:E; simpl.
  - apply Z.eqb_eq in E. now subst.
  - apply Z.eqb_neq in E. f_equal. apply IH. destruct H; [contradiction | easy].
Qed.

Lemma keys_set_absent (k : Z) (v : Item) (m : t) :
  ~ In k (keys m) -> keys (set k v m) = keys m ++ [k].
Proof.
  induction m as [| [k' v'] m IH]; simpl; [easy |].
  intros H. destruct (k' =? k) eqn:E; simpl.
  - apply Z.eqb_eq in E. elim H. now left.
  - f_equal. apply IH. intros H'. apply H. now right.
Qed.

Lemma set_absent (k : Z) (v : Item) (m : t) :
  ~ In k (keys m) -> set k v m = m ++ [(k, v)].
Proof.
  induction m as [| [k' v'] m IH]; simpl; [easy |].
  intros H. destruct (k' =? k) eqn:E; simpl.
  - apply Z.eqb_eq in E. elim H. now left.
  - f_equal. apply IH. intros H'. apply H. now right.
Qed.

Lemma In_set (k : Z) (v : Item) (m : t) (e : Z * Item) :
  In e (set k v m) -> e = (k, v) \/ In e m.
Proof.
  induction m as [| [k' v'] m IH]; simpl.
  - intros [H | []]. now left.
  - destruct (k' =? k); simpl; intros [H | H]; auto.
    destruct (IH H); auto.
Qed.

Lemma In_delete (k : Z) (m : t) (e : Z * Item) :
  In e (delete k m) -> In e m.
Proof.
  induction m as [| [k' v'] m IH]; simpl; [easy |].
  destruct (k' =? k); simpl; intros H; auto.
  destruct H; auto.
Qed.

Lemma keys_delete (k : Z) (m : t) :
  NoDup (keys m) -> keys (delete k m) = filter (fun x => negb (x =? k)) (keys m).
Proof.
  induction m as [| [k' v'] m IH]; simpl; [easy |].
  intros Hnd. inversion Hnd as [| ? ? Hnotin Hnd']; subst.
  destruct (k' =? k) eqn:E; simpl.
  - apply Z.eqb_eq in E. subst k'.
    symmetry. apply forallb_filter_id. apply forallb_forall.
    intros x Hx. destruct (x =? k) eqn:E'; [| easy].
    apply Z.eqb_eq in E'. subst. contradiction.
  - f_equal. now apply IH.
Qed.

Lemma get_delete_other (k k' : Z) (m : t) :
  k <> k' -> get k' (delete k m) = get k' m.
Proof.
  intros Hne. induction m as [| [k0 v0] m IH]; simpl; [easy |].
  destruct (k0 =? k) eqn:E; simpl.
  - apply Z.eqb_eq in E. subst k0.
    destruct (k =? k') eqn:E'; [apply Z.eqb_eq in E'; contradiction | easy].
  - now rewrite IH.
Qed.

End JsMapFacts.

(** ** Strictly ascending lists of ids *)

Module AscendingFacts.
Import Ascending.

Lemma iota_bounds (n : nat) (start x : Z) :
  In x (iota start n) -> start <= x < start + Z.of_nat n.
Proof.
  revert start. induction n as [| n IH]; simpl; intros start; [easy |].
  intros [<- | H]; [lia |]. apply IH in H. lia.
Qed.

Lemma iota_sorted (n : nat) (start : Z) : StronglySorted Z.lt (iota start n).
Proof.
  revert start. induction n as [| n IH]; simpl; intros start; constructor.
  - apply IH.
  - apply Forall_forall. intros x Hx. apply iota_bounds in Hx. lia.
Qed.

Lemma iota_app (n m : nat) (start : Z) :
  iota start (n + m) = iota start n ++ iota (start + Z.of_nat n) m.
Proof.
  revert start. induction n as [| n IH]; intros start.
  - simpl. now rewrite Z.add_0_r.
  - cbn [Nat.add iota app]. rewrite IH. do 3 f_equal. lia.
Qed.

Lemma sorted_NoDup (l : list Z) : StronglySorted Z.lt l -> NoDup l.
Proof.
  induction 1 as [| x l Hs IH Hall]; constructor; [| easy].
  intros Hin. rewrite Forall_forall in Hall. apply Hall in Hin. lia.
Qed.

Lemma sorted_snoc (l : list Z) (x : Z) :
  StronglySorted Z.lt l -> Forall (fun y => y < x) l ->
  StronglySorted Z.lt (l ++ [x]).
Proof.
  induction 1 as [| y l Hs IH Hall]; simpl; intros Hlt.
  - repeat constructor.
  - inversion Hlt; subst. constructor; [now apply IH |].
    apply Forall_app. split; [easy |]. now repeat constructor.
Qed.

Lemma sorted_filter (f : Z -> bool) (l : list Z) :
  StronglySorted Z.lt l -> StronglySorted Z.lt (filter f l).
Proof.
  induction 1 as [| x l Hs IH Hall]; simpl; [constructor |].
  destruct (f x); [| easy]. constructor; [easy |].
  rewrite Forall_forall in *. intros y Hy. apply filter_In in Hy. now apply Hall.
Qed.

Lemma mem_In (l : list Z) (x : Z) : mem l x = true <-> In x l.
Proof.
  unfold mem. rewrite existsb_exists. split.
  - intros [y [Hy E]]. apply Z.eqb_eq in E. now subst.
  - intros H. exists x. now rewrite Z.eqb_refl.
Qed.

(** An ascending list drawn from an ascending list is what is left of it
    when the other elements are struck out: the order is the same. *)
Lemma sorted_incl_filter (a l : list Z) :
  StronglySorted Z.lt a -> StronglySorted Z.lt l -> incl l a ->
  l = filter (mem l) a.
Proof.
  intros Ha. revert l. induction Ha as [| x a Hs IH Hall]; intros l Hl Hincl.
  - destruct l as [| y l]; [easy |]. elim (Hincl y). now left.
  - rewrite Forall_forall in Hall.
    destruct l as [| y l].
    + simpl. apply (IH []); [constructor | easy].
    + inversion Hl as [| ? ? Hl' Hy]; subst. rewrite Forall_forall in Hy.
      destruct (Z.eq_dec y x) as [-> | Hne].
      * simpl. unfold mem at 1. simpl. rewrite Z.eqb_refl. simpl. f_equal.
        rewrite (IH l Hl') at 1.
        -- apply filter_ext_in. intros z Hz. unfold mem. simpl.
           destruct (z =? x) eqn:E; [| easy].
           apply Z.eqb_eq in E. subst. apply Hall in Hz. lia.
        -- intros z Hz. destruct (Hincl z (or_intror Hz)) as [<- | H]; [| easy].
           apply Hy in Hz. lia.
      * assert (Hx : mem (y :: l) x = false).
        { destruct (mem (y :: l) x) eqn:E; [| easy].
          apply mem_In in E.
          assert (Hyx : x < y).
          { destruct (Hincl y (or_introl eq_refl)) as [-> | H];
              [contradiction | now apply Hall]. }
          destruct E as [-> | E]; [lia |]. apply Hy in E. lia. }
        cbn [filter]. rewrite Hx. apply IH; [easy |].
        intros z Hz. destruct (Hincl z Hz) as [<- | H]; [| easy].
        apply mem_In in Hz. congruence.
Qed.

End AscendingFacts.

(** ** The storage invariant *)

Module StoreFacts.
Import JsMapFacts Ascending AscendingFacts.

Create HintDb store discriminated.
#[local] Hint Constructors StronglySorted Forall NoDup : store.
#[local] Hint Resolve sorted_NoDup sorted_filter iota_sorted : store.

Lemma Inv_constructor : Inv Storage.constructor.
Proof. split; simpl; auto with store. lia. Qed.

Lemma Inv_NoDup (s : MemStorage) : Inv s -> NoDup (JsMap.keys (items s)).
Proof. intros [_ H _ _]. auto with store. Qed.

Lemma Inv_fresh (s : MemStorage) :
  Inv s -> ~ In (currentId s) (JsMap.keys (items s)).
Proof.
  intros [_ _ Hb _] Hin. rewrite Forall_forall in Hb. apply Hb in Hin. lia.
Qed.

Lemma Inv_createItem (insertItem : InsertItem) (s : MemStorage) :
  Inv s -> Inv (snd (Storage.createItem insertItem s)).
Proof.
  intros HI. pose proof (Inv_fresh s HI) as Hfresh.
  destruct HI as [Hc Hs Hb Hid]. split; simpl.
  - lia.
  - rewrite keys_set_absent by easy. apply sorted_snoc; [easy |].
    eapply Forall_impl; [| exact Hb]. simpl. lia.
  - rewrite keys_set_absent by easy. apply Forall_app. split.
    + eapply Forall_impl; [| exact Hb]. simpl. lia.
    + constructor; [lia | constructor].
  - rewrite set_absent by easy. apply Forall_app. split; [easy |].
    now repeat constructor.
Qed.

Lemma Inv_updateItem (k : Z) (data : UpdateItemData) (s : MemStorage) :
  Inv s -> Inv (snd (Storage.updateItem k data s)).
Proof.
  intros HI. unfold Storage.updateItem.
  destruct (JsMap.get k (items s)) as [item |] eqn:E; [| easy].
  assert (Hin : In k (JsMap.keys (items s))).
  { apply has_keys. unfold JsMap.has. now rewrite E. }
  destruct HI as [Hc Hs Hb Hid]. split; simpl;
    try (rewrite keys_set_present by easy); try easy.
  rewrite Forall_forall in *. intros e He.
  apply In_set in He. destruct He as [-> | He]; [| now apply Hid].
  simpl. apply get_Some_In in E. now apply Hid in E.
Qed.

Lemma Inv_deleteItem (k : Z) (s : MemStorage) :
  Inv s -> Inv (snd (Storage.deleteItem k s)).
Proof.
  intros HI. pose proof (Inv_NoDup s HI) as Hnd.
  unfold Storage.deleteItem.
  destruct (negb (JsMap.has k (items s))); [easy |].
  destruct HI as [Hc Hs Hb Hid]. split; simpl.
  - easy.
  - rewrite keys_delete by easy. auto with store.
  - rewrite keys_delete by easy. rewrite Forall_forall in *.
    intros x Hx. apply filter_In in Hx. now apply Hb.
  - rewrite Forall_forall in *. intros e He. apply In_delete in He. auto.
Qed.

Lemma Inv_apply_op (op : StoreOp) (s : MemStorage) :
  Inv s -> Inv (apply_op op s).
Proof.
  intros HI. destruct op; simpl.
  - easy.
  - now apply (Inv_createItem insertItem).
  - now apply Inv_updateItem.
  - now apply Inv_deleteItem.
  - destruct HI as [Hc _ _ _]. split; simpl; auto with store.
Qed.

Lemma Inv_run_ops (ops : list StoreOp) (s : MemStorage) :
  Inv s -> Inv (run_ops ops s).
Proof.
  revert s. induction ops as [| op ops IH]; simpl; intros s HI; [easy |].
  apply IH. now apply Inv_apply_op.
Qed.

(** The storage of a process lifetime. *)
Lemma Inv_lifetime (ops : list StoreOp) :
  Inv (run_ops ops Storage.constructor).
Proof. apply Inv_run_ops, Inv_constructor. Qed.

(** Only [createItem] moves the counter, by one. *)
Lemma currentId_apply_op (op : StoreOp) (s : MemStorage) :
  currentId (apply_op op s)
  = currentId s + Z.of_nat (List.length (allocated_by op s))
  /\ allocated_by op s = iota (currentId s) (List.length (allocated_by op s)).
Proof.
  destruct op; simpl; try (split; [lia | easy]).
  - unfold Storage.updateItem.
    destruct (JsMap.get id0 (items s)); simpl; split; (lia || easy).
  - unfold Storage.deleteItem.
    destruct (negb (JsMap.has id0 (items s))); simpl; split; (lia || easy).
Qed.

(** The ids handed out are consecutive, from the counter on. *)
Lemma allocated_ids_iota (ops : list StoreOp) (s : MemStorage) :
  allocated_ids ops s = iota (currentId s) (List.length (allocated_ids ops s))
  /\ currentId (run_ops ops s)
     = currentId s + Z.of_nat (List.length (allocated_ids ops s)).
Proof.
  revert s. induction ops as [| op ops IH]; intros s; simpl.
  - split; [easy | lia].
  - destruct (IH (apply_op op s)) as [IH1 IH2].
    destruct (currentId_apply_op op s) as [Hc Ha].
    rewrite length_app, iota_app, <- Ha, <- Hc, <- IH1. split; [easy |].
    rewrite IH2, Hc. lia.
Qed.

Lemma allocated_ids_sorted (ops : list StoreOp) (s : MemStorage) :
  StronglySorted Z.lt (allocated_ids ops s).
Proof.
  destruct (allocated_ids_iota ops s) as [-> _]. auto with store.
Qed.

Lemma allocated_ids_app (pre post : list StoreOp) (s : MemStorage) :
  allocated_ids (pre ++ post) s
  = allocated_ids pre s ++ allocated_ids post (run_ops pre s).
Proof.
  revert s. induction pre as [| op pre IH]; intros s; simpl; [easy |].
  now rewrite IH, app_assoc.
Qed.

Lemma run_ops_app (pre post : list StoreOp) (s : MemStorage) :
  run_ops (pre ++ post) s = run_ops post (run_ops pre s).
Proof.
  revert s. induction pre as [| op pre IH]; intros s; simpl; [easy |].
  now rewrite IH.
Qed.

(** Every key of the storage is a key it started with or an id handed out
    since. *)
Lemma keys_run_ops (ops : list StoreOp) (s : MemStorage) (k : Z) :
  In k (JsMap.keys (items (run_ops ops s))) ->
  In k (JsMap.keys (items s)) \/ In k (allocated_ids ops s).
Proof.
  revert s. induction ops as [| op ops IH]; intros s; simpl; [auto |].
  intros H. apply IH in H. rewrite in_app_iff.
  destruct H as [H | H]; [| auto].
  destruct op; simpl in *; auto.
  - unfold JsMap.keys in H. apply in_map_iff in H.
    destruct H as [e [<- He]]. apply In_set in He.
    destruct He as [-> | He]; simpl; [auto |].
    left. now apply in_map.
  - unfold Storage.updateItem in H.
    destruct (JsMap.get id0 (items s)) eqn:E; simpl in H; [| auto].
    unfold JsMap.keys in H. apply in_map_iff in H.
    destruct H as [e [<- He]]. apply In_set in He.
    destruct He as [-> | He]; simpl.
    + left. apply has_keys. unfold JsMap.has. now rewrite E.
    + left. now apply in_map.
  - unfold Storage.deleteItem in H.
    destruct (negb (JsMap.has id0 (items s))); simpl in H; [auto |].
    unfold JsMap.keys in H. apply in_map_iff in H.
    destruct H as [e [<- He]]. apply In_delete in He.
    left. now apply in_map.
Qed.

(** Under the invariant the ids of the listed items are the keys. *)
Lemma ids_are_keys (s : MemStorage) :
  Inv s -> map id (JsMap.values (items s)) = JsMap.keys (items s).
Proof.
  intros [_ _ _ Hid]. unfold JsMap.values, JsMap.keys.
  rewrite map_map. apply map_ext_in. intros e He.
  rewrite Forall_forall in Hid. now apply Hid.
Qed.

End StoreFacts.

(* ===================================================================== *)
(** * The item store *)
(* ===================================================================== *)

Section StoreClaims.
Import JsMapFacts Ascending AscendingFacts StoreFacts.

Lemma iota_lt_end (n : nat) (start : Z) :
  Forall (fun j => j < start + Z.of_nat n) (iota start n).
Proof.
  apply Forall_forall. intros x Hx. apply iota_bounds in Hx. lia.
Qed.

(** C3. In a process lifetime (any sequence of storage operations applied
    to a fresh [MemStorage]) the ids handed out by [createItem] are strictly
    ascending in the order of the calls, so none is handed out twice, also
    not the id of an item deleted since; a [createItem] after any history
    resolves to an item whose id is greater than every id handed out
    before and than every id in the storage; and the ids of the stored
    items are pairwise different. *)
Theorem createItem_ids_strictly_increasing
        (ops pre : list StoreOp) (insertItem : InsertItem) :
  let before := run_ops pre Storage.constructor in
  let after := run_ops ops Storage.constructor in
  (exists item,
      fst (Storage.createItem insertItem before) = Resolved item
      /\ Forall (fun j => j < id item)
                (allocated_ids pre Storage.constructor)
      /\ Forall (fun j => j < id item) (JsMap.keys (items before))
      /\ allocated_ids (pre ++ [OpCreateItem insertItem])
                       Storage.constructor
         = allocated_ids pre Storage.constructor ++ [id item])
  /\ StronglySorted Z.lt (allocated_ids ops Storage.constructor)
  /\ NoDup (allocated_ids ops Storage.constructor)
  /\ NoDup (JsMap.keys (items after))
  /\ NoDup (map id (JsMap.values (items after))).
Proof.
  intros before after. repeat split.
  - eexists. split; [reflexivity |]. simpl.
    destruct (allocated_ids_iota pre Storage.constructor) as [Hi Hc].
    fold before in Hc.
    remember (List.length (allocated_ids pre Storage.constructor)) as n.
    repeat split.
    + rewrite Hc, Hi. apply iota_lt_end.
    + pose proof (Inv_lifetime pre) as [_ _ Hb _]. fold before in Hb.
      eapply Forall_impl; [| exact Hb]. simpl. lia.
    + now rewrite allocated_ids_app.
  - apply allocated_ids_sorted.
  - apply sorted_NoDup, allocated_ids_sorted.
  - apply Inv_NoDup, Inv_lifetime.
  - rewrite ids_are_keys by apply Inv_lifetime.
    apply Inv_NoDup, Inv_lifetime.
Qed.

(** C4. [updateItem] on an id that is present resolves to the old item
    with the supplied fields overwritten, and stores that item: a field
    that is set overwrites, whatever the value ([false] and the empty
    string too); a field that is left out, and the id, keep the old value;
    the empty update resolves to the old item unchanged. The other items,
    the order of the items and the id counter are untouched. *)
Theorem updateItem_merges_supplied_fields
        (s : MemStorage) (k : Z) (data : UpdateItemData) (item : Item) :
  JsMap.get k (items s) = Some item ->
  exists updated s',
    Storage.updateItem k data s = (Resolved updated, s')
    /\ JsMap.get k (items s') = Some updated
    /\ id updated = id item
    /\ (forall b, upd_completed data = Some b -> completed updated = b)
    /\ (forall c, upd_category data = Some c -> category updated = c)
    /\ (forall n, upd_name data = Some n -> name updated = n)
    /\ (upd_completed data = None -> completed updated = completed item)
    /\ (upd_category data = None -> category updated = category item)
    /\ (upd_name data = None -> name updated = name item)
    /\ (data = mkUpdateItemData None None None -> updated = item)
    /\ (forall k', k' <> k ->
                   JsMap.get k' (items s') = JsMap.get k' (items s))
    /\ JsMap.keys (items s') = JsMap.keys (items s)
    /\ currentId s' = currentId s.
Proof.
  intros Hget. unfold Storage.updateItem. rewrite Hget.
  do 2 eexists. split; [reflexivity |]. simpl.
  repeat match goal with |- _ /\ _ => split end.
  - apply get_set_same.
  - reflexivity.
  - now intros b ->.
  - now intros c ->.
  - now intros n ->.
  - now intros ->.
  - now intros ->.
  - now intros ->.
  - intros ->. now destruct item.
  - intros k' Hne. apply get_set_other. congruence.
  - apply keys_set_present, has_keys. unfold JsMap.has. now rewrite Hget.
  - reflexivity.
Qed.

(** C8. [getItems] always resolves and leaves the storage as it is. In a
    process lifetime it lists exactly the items that are stored, in the
    order in which they were created (the ids handed out, oldest first,
    without those no longer stored), which is ascending id order; an
    [updateItem] does not move any item; a fresh storage and a cleared
    one list nothing. *)
Theorem getItems_lists_in_insertion_order (ops : list StoreOp) :
  let s := run_ops ops Storage.constructor in
  let listed := JsMap.values (items s) in
  Storage.getItems s = (Resolved listed, s)
  /\ (forall k v, JsMap.get k (items s) = Some v <-> In v listed /\ id v = k)
  /\ map id listed
     = filter (fun i => JsMap.has i (items s))
              (allocated_ids ops Storage.constructor)
  /\ StronglySorted Z.lt (map id listed)
  /\ (forall k data,
        map id (JsMap.values (items (apply_op (OpUpdateItem k data) s)))
        = map id listed)
  /\ Storage.getItems Storage.constructor
     = (Resolved [], Storage.constructor)
  /\ fst (Storage.getItems (apply_op OpDeleteAllItems s)) = Resolved [].
Proof.
  intros s listed. pose proof (Inv_lifetime ops) as HI. fold s in HI.
  repeat match goal with |- _ /\ _ => split end; try reflexivity.
  - intros k v. split.
    + intros Hget. apply get_Some_In in Hget. split.
      * unfold listed, JsMap.values. change v with (snd (k, v)).
        now apply in_map.
      * destruct HI as [_ _ _ Hid]. rewrite Forall_forall in Hid.
        now apply Hid in Hget.
    + intros [Hin Hid]. unfold listed, JsMap.values in Hin.
      apply in_map_iff in Hin. destruct Hin as [[k' v'] [E He]].
      simpl in E. subst v'. apply In_get_Some; [now apply Inv_NoDup |].
      destruct HI as [_ _ _ Hall]. rewrite Forall_forall in Hall.
      apply Hall in He as Hk. simpl in Hk. congruence.
  - unfold listed. rewrite ids_are_keys by easy.
    rewrite (sorted_incl_filter (allocated_ids ops Storage.constructor)
                                (JsMap.keys (items s))) at 1.
    + apply filter_ext. intros i.
      destruct (JsMap.has i (items s)) eqn:E.
      * apply mem_In. now apply has_keys.
      * destruct (mem (JsMap.keys (items s)) i) eqn:E'; [| easy].
        apply mem_In, has_keys in E'. congruence.
    + apply allocated_ids_sorted.
    + now destruct HI.
    + intros k Hk. apply keys_run_ops in Hk. now destruct Hk.
  - unfold listed. rewrite ids_are_keys by easy. now destruct HI.
  - intros k data. unfold listed.
    rewrite !ids_are_keys; [| easy | now apply (Inv_apply_op (OpUpdateItem k data))].
    simpl. unfold Storage.updateItem.
    destruct (JsMap.get k (items s)) eqn:E; [| easy]. simpl.
    apply keys_set_present, has_keys. unfold JsMap.has. now rewrite E.
Qed.

End StoreClaims.

Example two_items_listed :
  fst (Storage.getItems two_items)
  = Resolved [mkItem 1 "mjölk" "mejeri" false; mkItem 2 "bröd" "skafferi" true].
Proof. reflexivity. Qed.

(** Ids are not handed out again after a delete. *)
Example delete_then_create :
  allocated_ids [OpCreateItem (mkInsertItem "a" "x" None);
                 OpDeleteItem 1;
                 OpCreateItem (mkInsertItem "b" "x" None)]
                Storage.constructor = [1; 2].
Proof. reflexivity. Qed.

Lemma updateItem_merges_supplied_fields_witness :
  exists updated s',
    Storage.updateItem 2 (mkUpdateItemData (Some false) None (Some EmptyString)) two_items
    = (Resolved updated, s')
    /\ JsMap.get 2 (items s') = Some updated
    /\ updated = mkItem 2 EmptyString "skafferi" false.
Proof.
  destruct (updateItem_merges_supplied_fields
              two_items 2 (mkUpdateItemData (Some false) None (Some EmptyString))
              (mkItem 2 "bröd" "skafferi" true) eq_refl)
    as [updated [s' [Hu [Hg _]]]].
  exists updated, s'. repeat split; [exact Hu | exact Hg |].
  vm_compute in Hu. now injection Hu as <- _.
Defined.

(* ===================================================================== *)
(** * The broadcast channel *)
(* ===================================================================== *)

Lemma ReadyState_eqb_eq (a b : ReadyState) :
  ReadyState_eqb a b = true <-> a = b.
Proof. destruct a, b; simpl; split; congruence. Qed.

Lemma count_app (p : Event -> bool) (a b : list Event) :
  count p (a ++ b) = (count p a + count p b)%nat.
Proof. unfold count. now rewrite filter_app, length_app. Qed.

Lemma count_cons (p : Event -> bool) (e : Event) (l : list Event) :
  count p (e :: l) = ((if p e then 1 else 0) + count p l)%nat.
Proof. unfold count. simpl. now destruct (p e). Qed.

Module BroadcastFacts.

Ltac run :=
  unfold bind, ret, emit, get_clients, get_socket, call_storage,
    clients_delete, clients_add, response, world_after, events; simpl.

Section WithSerializer.

Variable JSON_stringify : Message -> string.

(** One turn: the socket is skipped, sent to, or sent to and dropped. *)
Lemma push_run (message : string) (c : nat) (w : World) :
  push message c w
  = (tt,
     (if fails (sockets w) c
      then {| storage := storage w;
              clients := filter (fun x => negb (Nat.eqb c x)) (clients w);
              sockets := sockets w |}
      else w),
     push_events (sockets w) message c).
Proof.
  unfold push, fails, push_events, is_open. run.
  destruct (ReadyState_eqb (readyState (sockets w c)) OPEN); simpl;
    [| reflexivity].
  destruct (send_throws (sockets w c)); reflexivity.
Qed.

Lemma filter_filter_negb (p q : nat -> bool) (l : list nat) :
  filter p (filter q l) = filter (fun x => q x && p x) l.
Proof.
  induction l as [| x l IH]; simpl; [easy |].
  destruct (q x); simpl; [destruct (p x) |]; now rewrite IH.
Qed.

(** The whole loop over a snapshot [cs] of the set. *)
Lemma forEach_push_run (message : string) (cs : list nat) (w : World) :
  let r := forEach cs (push message) w in
  storage (world_after r) = storage w
  /\ sockets (world_after r) = sockets w
  /\ clients (world_after r)
     = filter (fun x => negb (existsb (fun d => Nat.eqb d x
                                                && fails (sockets w) d) cs))
              (clients w)
  /\ events r = flat_map (push_events (sockets w) message) cs.
Proof.
  revert w. induction cs as [| c cs IH]; intros w; simpl.
  - run. repeat split. symmetry. now apply forallb_filter_id, forallb_forall.
  - unfold bind. rewrite push_run.
    set (w1 := if fails (sockets w) c then _ else w).
    assert (Hs : storage w1 = storage w)
      by (unfold w1; now destruct (fails (sockets w) c)).
    assert (Hk : sockets w1 = sockets w)
      by (unfold w1; now destruct (fails (sockets w) c)).
    specialize (IH w1). simpl in IH.
    destruct (forEach cs (push message) w1) as [[u w2] e2].
    unfold world_after, events in *. simpl in *.
    destruct IH as [IH1 [IH2 [IH3 IH4]]].
    rewrite IH1, IH2, IH3, IH4, Hs, Hk. repeat split.
    unfold w1. destruct (fails (sockets w) c) eqn:F; simpl.
    + rewrite filter_filter_negb. apply filter_ext. intros x.
      destruct (Nat.eqb c x); simpl; [easy |]. reflexivity.
    + apply filter_ext. intros x. now rewrite andb_false_r.
Qed.

(** The run of [broadcastUpdate], event by event. *)
Lemma broadcastUpdate_run (w : World) :
  let r := broadcastUpdate JSON_stringify w in
  storage (world_after r) = storage w
  /\ sockets (world_after r) = sockets w
  /\ clients (world_after r)
     = filter (fun x => negb (fails (sockets w) x)) (clients w)
  /\ events r
     = [Ev_broadcastUpdate; Ev_storage OpGetItems;
        Ev_stringify (snapshot w)]
       ++ flat_map (push_events (sockets w)
                                (JSON_stringify (snapshot w)))
                   (clients w).
Proof.
  unfold broadcastUpdate. run.
  set (w0 := {| storage := storage w; clients := clients w;
                sockets := sockets w |}).
  pose proof (forEach_push_run (JSON_stringify (snapshot w)) (clients w) w0)
    as H.
  simpl in H. unfold snapshot in *.
  destruct (forEach (clients w) _ w0) as [[u w2] e2].
  unfold world_after, events in *. simpl in *.
  destruct H as [H1 [H2 [H3 H4]]]. rewrite H1, H2, H3, H4.
  repeat split.
  apply filter_ext_in. intros x Hx. f_equal.
  destruct (fails (sockets w) x) eqn:F.
  - apply existsb_exists. exists x. now rewrite Nat.eqb_refl.
  - destruct (existsb _ (clients w)) eqn:E; [| easy].
    apply existsb_exists in E. destruct E as [d [_ Hd]].
    apply andb_prop in Hd. destruct Hd as [Hd1 Hd2].
    apply Nat.eqb_eq in Hd1. subst. congruence.
Qed.

(** The events of the loop, read back. *)
Lemma In_push_events (sk : nat -> Socket) (message : string)
      (cs : list nat) (e : Event) :
  In e (flat_map (push_events sk message) cs) <->
  exists c, In c cs /\ is_open sk c = true
            /\ (e = Ev_send c message
                \/ (send_throws (sk c) = true
                    /\ e = Ev_console_error "WebSocket send error:")).
Proof.
  rewrite in_flat_map. unfold push_events. split.
  - intros [c [Hc He]]. exists c. split; [easy |].
    destruct (is_open sk c); [| easy]. split; [easy |].
    destruct He as [<- | He]; [now left |].
    destruct (send_throws (sk c)); [| easy].
    destruct He as [<- | []]. now right.
  - intros [c [Hc [Ho He]]]. exists c. split; [easy |]. rewrite Ho.
    destruct He as [-> | [Ht ->]]; [now left |]. rewrite Ht. right. now left.
Qed.

Lemma count_push_events (p : Event -> bool) (sk : nat -> Socket)
      (message : string) (cs : list nat) :
  (forall c, p (Ev_send c message) = false) ->
  p (Ev_console_error "WebSocket send error:") = false ->
  count p (flat_map (push_events sk message) cs) = O.
Proof.
  intros Hs He. induction cs as [| c cs IH]; simpl; [easy |].
  rewrite count_app, IH, Nat.add_0_r. unfold push_events, count.
  destruct (is_open sk c); simpl; [| easy]. rewrite Hs.
  destruct (send_throws (sk c)); simpl; [| easy]. now rewrite He.
Qed.

Lemma count_errors_push_events (sk : nat -> Socket) (message : string)
      (cs : list nat) :
  count is_console_error (flat_map (push_events sk message) cs)
  = List.length (filter (fails sk) cs).
Proof.
  induction cs as [| c cs IH]; simpl; [easy |].
  rewrite count_app, IH. unfold push_events, fails, count.
  destruct (is_open sk c); simpl; [| easy].
  destruct (send_throws (sk c)); simpl; easy.
Qed.

End WithSerializer.

End BroadcastFacts.

(* ===================================================================== *)
(** * The mutation API *)
(* ===================================================================== *)

Lemma with_storage_same (w : World) : with_storage w (storage w) = w.
Proof. now destruct w. Qed.

Module HandlerFacts.
Import BroadcastFacts.

Section WithSerializer.

Variable JSON_stringify : Message -> string.

Abbreviation broadcast := (broadcastUpdate JSON_stringify).

(** [broadcastUpdate(); res.json(..)]: the answer does not wait for the
    broadcast and does not depend on it. *)
Lemma broadcast_then_answer (a : Response) (w : World) :
  (broadcast ;; ret a) w
  = (a, world_after (broadcast w), events (broadcast w)).
Proof.
  unfold bind, ret, world_after, events.
  destruct (broadcast w) as [[u w'] e]. simpl. now rewrite app_nil_r.
Qed.

Lemma post_items_run (req_body : JSON) (w : World) :
  post_items JSON_stringify req_body w
  = match insertItemSchema_safeParse req_body with
    | None => (res_status_json 400 "Invalid item data", w, [])
    | Some data =>
        let w1 := with_storage w (snd (Storage.createItem data (storage w))) in
        match fst (Storage.createItem data (storage w)) with
        | Resolved item =>
            (res_json_item item, world_after (broadcast w1),
             Ev_storage (OpCreateItem data) :: events (broadcast w1))
        | Rejected _ =>
            (res_status_json 500 "Failed to create item", w1,
             [Ev_storage (OpCreateItem data);
              Ev_console_error "Create item error:"])
        end
    end.
Proof.
  unfold post_items.
  destruct (insertItemSchema_safeParse req_body) as [data |]; [| easy].
  unfold bind at 1, call_storage, with_storage. simpl.
  now rewrite broadcast_then_answer.
Qed.

Lemma patch_item_run (req_params_id : string) (req_body : JSON) (w : World) :
  patch_item JSON_stringify req_params_id req_body w
  = match parseInt req_params_id with
    | None => (res_status_json 400 "Invalid ID", w, [])
    | Some k =>
        match updateItemSchema_safeParse req_body with
        | None => (res_status_json 400 "Invalid update data", w, [])
        | Some data =>
            match JsMap.get k (items (storage w)) with
            | None =>
                (res_status_json 404 "Item not found", w,
                 [Ev_storage (OpUpdateItem k data);
                  Ev_console_error "Update item error:"])
            | Some item =>
                let w1 := with_storage
                            w (snd (Storage.updateItem k data (storage w))) in
                (res_json_item (Storage.merge item data),
                 world_after (broadcast w1),
                 Ev_storage (OpUpdateItem k data) :: events (broadcast w1))
            end
        end
    end.
Proof.
  unfold patch_item.
  destruct (parseInt req_params_id) as [k |]; [| easy].
  destruct (updateItemSchema_safeParse req_body) as [data |]; [| easy].
  unfold bind at 1, call_storage, with_storage, Storage.updateItem.
  destruct (JsMap.get k (items (storage w))) as [item |]; simpl.
  - now rewrite broadcast_then_answer.
  - now destruct w.
Qed.

Lemma delete_item_run (req_params_id : string) (w : World) :
  delete_item JSON_stringify req_params_id w
  = match parseInt req_params_id with
    | None => (res_status_json 400 "Invalid ID", w, [])
    | Some k =>
        if JsMap.has k (items (storage w)) then
          let w1 := with_storage
                      w (snd (Storage.deleteItem k (storage w))) in
          (res_status_end 204, world_after (broadcast w1),
           Ev_storage (OpDeleteItem k) :: events (broadcast w1))
        else
          (res_status_json 404 "Item not found", w,
           [Ev_storage (OpDeleteItem k);
            Ev_console_error "Delete item error:"])
    end.
Proof.
  unfold delete_item.
  destruct (parseInt req_params_id) as [k |]; [| easy].
  unfold bind at 1, call_storage, with_storage, Storage.deleteItem.
  destruct (JsMap.has k (items (storage w))); simpl.
  - now rewrite broadcast_then_answer.
  - now destruct w.
Qed.

Lemma delete_items_run (w : World) :
  delete_items JSON_stringify w
  = let w1 := with_storage w (snd (Storage.deleteAllItems (storage w))) in
    (res_status_end 204, world_after (broadcast w1),
     Ev_storage OpDeleteAllItems :: events (broadcast w1)).
Proof.
  unfold delete_items, bind at 1, call_storage, with_storage. simpl.
  now rewrite broadcast_then_answer.
Qed.

(** One broadcast is one entry into [broadcastUpdate]. *)
Lemma count_broadcast_run (w : World) :
  count is_broadcast (events (broadcast w)) = 1%nat.
Proof.
  destruct (broadcastUpdate_run JSON_stringify w) as [_ [_ [_ ->]]].
  rewrite count_app, count_push_events; easy.
Qed.

End WithSerializer.

End HandlerFacts.

Section RouteClaims.
Import BroadcastFacts HandlerFacts.

Variable JSON_stringify : Message -> string.

Abbreviation broadcast := (broadcastUpdate JSON_stringify).

(** C1, as the code has it. A broadcast reads the item list of the
    storage once, serializes one message [{type: "UPDATE", items}] once,
    and calls [send] with that one string on every tracked connection
    whose state is [OPEN], whatever the other sends do; nothing else is
    sent; the storage is not changed; and the answer to a mutation and the
    storage after it are the same whatever the tracked connections are and
    whether their sends raise. *)
Theorem broadcastUpdate_pushes_one_snapshot_to_open_clients
        (w : World) (req : Mutation)
        (cl : list nat) (sk : nat -> Socket) :
  let r := broadcast w in
  let m := mkMessage "UPDATE" (JsMap.values (items (storage w))) in
  filter is_storage_call (events r) = [Ev_storage OpGetItems]
  /\ filter is_stringify (events r) = [Ev_stringify m]
  /\ (forall c, In c (clients w) -> readyState (sockets w c) = OPEN ->
                In (Ev_send c (JSON_stringify m)) (events r))
  /\ (forall c message, In (Ev_send c message) (events r) ->
                        message = JSON_stringify m)
  /\ storage (world_after r) = storage w
  /\ response (handle JSON_stringify req (mkWorld (storage w) cl sk))
     = response (handle JSON_stringify req w)
  /\ storage (world_after
                (handle JSON_stringify req (mkWorld (storage w) cl sk)))
     = storage (world_after (handle JSON_stringify req w)).
Proof.
  intros r m.
  destruct (broadcastUpdate_run JSON_stringify w) as [Hs [_ [_ He]]].
  fold r in Hs, He. change (snapshot w) with m in He.
  assert (Hcount : forall p,
             (forall c, p (Ev_send c (JSON_stringify m)) = false) ->
             p (Ev_console_error "WebSocket send error:") = false ->
             filter p (flat_map (push_events (sockets w) (JSON_stringify m))
                                (clients w)) = []).
  { intros p H1 H2. apply length_zero_iff_nil.
    now apply (count_push_events p). }
  repeat match goal with |- _ /\ _ => split end.
  - rewrite He, filter_app, Hcount by easy. reflexivity.
  - rewrite He, filter_app, Hcount by easy. reflexivity.
  - intros c Hc Ho. rewrite He. apply in_or_app. right.
    apply In_push_events. exists c. repeat split; [easy | | now left].
    unfold is_open. now apply ReadyState_eqb_eq.
  - intros c message Hin. rewrite He in Hin. apply in_app_or in Hin.
    destruct Hin as [Hin | Hin].
    + simpl in Hin. intuition discriminate.
    + apply In_push_events in Hin.
      destruct Hin as [d [_ [_ [E | [_ E]]]]]; [| discriminate].
      now injection E.
  - exact Hs.
  - destruct req; simpl;
      rewrite ?post_items_run, ?patch_item_run, ?delete_item_run,
        ?delete_items_run; simpl.
    + now destruct (insertItemSchema_safeParse req_body).
    + destruct (parseInt req_params_id); [| easy].
      destruct (updateItemSchema_safeParse req_body); [| easy].
      now destruct (JsMap.get z (items (storage w))).
    + destruct (parseInt req_params_id); [| easy].
      now destruct (JsMap.has z (items (storage w))).
    + easy.
  - destruct req; simpl;
      rewrite ?post_items_run, ?patch_item_run, ?delete_item_run,
        ?delete_items_run; simpl.
    + destruct (insertItemSchema_safeParse req_body); [| easy].
      unfold world_after at 1 3. simpl.
      now rewrite !(proj1 (broadcastUpdate_run JSON_stringify _)).
    + destruct (parseInt req_params_id); [| easy].
      destruct (updateItemSchema_safeParse req_body); [| easy].
      destruct (JsMap.get z (items (storage w))); [| easy].
      unfold world_after at 1 3. simpl.
      now rewrite !(proj1 (broadcastUpdate_run JSON_stringify _)).
    + destruct (parseInt req_params_id); [| easy].
      destruct (JsMap.has z (items (storage w))); [| easy].
      unfold world_after at 1 3. simpl.
      now rewrite !(proj1 (broadcastUpdate_run JSON_stringify _)).
    + unfold world_after at 1 3. simpl.
      now rewrite !(proj1 (broadcastUpdate_run JSON_stringify _)).
Qed.

(** C9. In a broadcast [send] is called only on tracked connections whose
    state is [OPEN]. A tracked connection in another state gets no
    message, is still tracked afterwards and is itself unchanged; the only
    errors logged are those of open connections whose [send] raised, so a
    skipped connection is not an error. *)
Theorem broadcastUpdate_skips_connections_not_open (w : World) (c : nat) :
  In c (clients w) ->
  readyState (sockets w c) <> OPEN ->
  let r := broadcast w in
  (forall message, ~ In (Ev_send c message) (events r))
  /\ In c (clients (world_after r))
  /\ sockets (world_after r) c = sockets w c
  /\ (forall d message, In (Ev_send d message) (events r) ->
                        In d (clients w) /\ readyState (sockets w d) = OPEN)
  /\ count is_console_error (events r)
     = List.length (filter (fails (sockets w)) (clients w))
  /\ fails (sockets w) c = false.
Proof.
  intros Hc Hno r.
  destruct (broadcastUpdate_run JSON_stringify w) as [_ [Hk [Hcl He]]].
  fold r in Hk, Hcl, He.
  assert (Hopen : is_open (sockets w) c = false).
  { unfold is_open. destruct (ReadyState_eqb _ OPEN) eqn:E; [| easy].
    apply ReadyState_eqb_eq in E. contradiction. }
  assert (Hsend : forall d message,
             In (Ev_send d message) (events r) ->
             In d (clients w) /\ is_open (sockets w) d = true).
  { intros d message Hin. rewrite He in Hin. apply in_app_or in Hin.
    destruct Hin as [Hin | Hin]; [simpl in Hin; intuition discriminate |].
    apply In_push_events in Hin.
    destruct Hin as [x [Hx [Ho [E | [_ E]]]]]; [| discriminate].
    injection E as -> _. now split. }
  repeat match goal with |- _ /\ _ => split end.
  - intros message Hin. apply Hsend in Hin. destruct Hin. congruence.
  - rewrite Hcl. apply filter_In. split; [easy |].
    unfold fails. now rewrite Hopen.
  - now rewrite Hk.
  - intros d message Hin. apply Hsend in Hin. destruct Hin as [H1 H2].
    split; [easy | now apply ReadyState_eqb_eq in H2].
  - rewrite He, count_app, count_errors_push_events. reflexivity.
  - unfold fails. now rewrite Hopen.
Qed.

(** C2. A create, update, delete-one or delete-all request enters
    [broadcastUpdate] exactly once when it succeeds (status 200 or 204) and
    not at all when it fails; it fails exactly when the body is not valid,
    the id does not parse or the storage has no item of that id, and then
    the status is 400 or 404. *)
Theorem one_broadcast_per_successful_mutation (r : Mutation) (w : World) :
  let res := handle JSON_stringify r w in
  count is_broadcast (events res)
  = (if request_fails r (storage w) then 0 else 1)%nat
  /\ is_success (response res) = negb (request_fails r (storage w))
  /\ In (status (response res))
        (if request_fails r (storage w) then [400; 404] else [200; 204]).
Proof.
  destruct r; simpl;
    rewrite ?post_items_run, ?patch_item_run, ?delete_item_run,
      ?delete_items_run.
  - destruct (insertItemSchema_safeParse req_body); simpl; [| intuition auto].
    rewrite count_cons, count_broadcast_run. simpl. intuition auto.
  - destruct (parseInt req_params_id) as [k |]; simpl; [| intuition auto].
    destruct (updateItemSchema_safeParse req_body); simpl; [| intuition auto].
    unfold JsMap.has.
    destruct (JsMap.get k (items (storage w))); simpl; [| intuition auto].
    rewrite count_cons, count_broadcast_run. simpl. intuition auto.
  - destruct (parseInt req_params_id) as [k |]; simpl; [| intuition auto].
    destruct (JsMap.has k (items (storage w))); simpl; [| intuition auto].
    rewrite count_cons, count_broadcast_run. simpl. intuition auto.
  - simpl. rewrite count_cons, count_broadcast_run. simpl. intuition auto.
Qed.

(** No item is filed under an id below 1. *)
Lemma lifetime_has_no_id_below_1 (ops : list StoreOp) (k : Z) :
  k < 1 -> JsMap.get k (items (run_ops ops Storage.constructor)) = None.
Proof.
  intros Hk. apply JsMapFacts.get_None_keys. intros Hin.
  destruct (StoreFacts.Inv_lifetime ops) as [_ _ Hb _].
  rewrite Forall_forall in Hb. apply Hb in Hin. lia.
Qed.

(** C5. When the storage has no item of the id, [updateItem] and
    [deleteItem] reject with "Item not found" and leave the storage as it
    was; the DELETE request, and the PATCH request with a valid body, are
    answered 404, the world (storage and tracked connections) is exactly
    as before, and [broadcastUpdate] is not entered. A PATCH request on
    such an id changes nothing and broadcasts nothing whatever its body. *)
Theorem absent_id_is_NotFound_and_changes_nothing
        (w : World) (k : Z) (seg : string) (req_body : JSON) :
  JsMap.get k (items (storage w)) = None ->
  parseInt seg = Some k ->
  (forall data,
      Storage.updateItem k data (storage w)
      = (Rejected "Item not found", storage w))
  /\ Storage.deleteItem k (storage w)
     = (Rejected "Item not found", storage w)
  /\ delete_item JSON_stringify seg w
     = (res_status_json 404 "Item not found", w,
        [Ev_storage (OpDeleteItem k); Ev_console_error "Delete item error:"])
  /\ (forall data,
        updateItemSchema_safeParse req_body = Some data ->
        patch_item JSON_stringify seg req_body w
        = (res_status_json 404 "Item not found", w,
           [Ev_storage (OpUpdateItem k data);
            Ev_console_error "Update item error:"]))
  /\ world_after (patch_item JSON_stringify seg req_body w) = w
  /\ count is_broadcast (events (patch_item JSON_stringify seg req_body w))
     = O
  /\ count is_broadcast (events (delete_item JSON_stringify seg w)) = O.
Proof.
  intros Hget Hparse.
  assert (Hhas : JsMap.has k (items (storage w)) = false)
    by (unfold JsMap.has; now rewrite Hget).
  rewrite patch_item_run, delete_item_run, Hparse, Hget, Hhas.
  unfold Storage.updateItem, Storage.deleteItem. rewrite Hget, Hhas. simpl.
  repeat match goal with |- _ /\ _ => split end; try reflexivity.
  - now intros data ->.
  - now destruct (updateItemSchema_safeParse req_body).
  - now destruct (updateItemSchema_safeParse req_body).
Qed.

(** C6, as the code has it. A PATCH or DELETE request on [/api/items/:id]
    is answered 400 "Invalid ID", with the storage not called and nothing
    changed, exactly when [parseInt] of the id segment is [NaN]. When the
    segment parses, to a negative number too, the storage is called with
    the number (for PATCH once the body is valid) and the answer is not
    "Invalid ID"; a negative id is never one of a process lifetime's items,
    so the answer is then 404. *)
Theorem invalid_id_exactly_when_parseInt_is_NaN
        (w : World) (seg : string) (req_body : JSON) :
  (parseInt seg = None ->
   patch_item JSON_stringify seg req_body w
   = (res_status_json 400 "Invalid ID", w, [])
   /\ delete_item JSON_stringify seg w
      = (res_status_json 400 "Invalid ID", w, []))
  /\ (forall k,
        parseInt seg = Some k ->
        In (Ev_storage (OpDeleteItem k))
           (events (delete_item JSON_stringify seg w))
        /\ status (response (delete_item JSON_stringify seg w)) <> 400
        /\ response (patch_item JSON_stringify seg req_body w)
           <> res_status_json 400 "Invalid ID"
        /\ (forall data,
              updateItemSchema_safeParse req_body = Some data ->
              In (Ev_storage (OpUpdateItem k data))
                 (events (patch_item JSON_stringify seg req_body w))
              /\ status (response (patch_item JSON_stringify seg req_body w))
                 <> 400))
  /\ (forall k ops,
        parseInt seg = Some k ->
        k < 0 ->
        storage w = run_ops ops Storage.constructor ->
        status (response (delete_item JSON_stringify seg w)) = 404
        /\ (forall data,
              updateItemSchema_safeParse req_body = Some data ->
              status (response (patch_item JSON_stringify seg req_body w))
              = 404)).
Proof.
  rewrite patch_item_run, delete_item_run.
  repeat match goal with |- _ /\ _ => split end.
  - now intros ->.
  - intros k ->.
    repeat match goal with |- _ /\ _ => split end.
    + destruct (JsMap.has k (items (storage w))); now left.
    + now destruct (JsMap.has k (items (storage w))).
    + destruct (updateItemSchema_safeParse req_body); [| easy].
      now destruct (JsMap.get k (items (storage w))).
    + intros data ->.
      destruct (JsMap.get k (items (storage w))); split; (now left) || easy.
  - intros k ops -> Hneg Hs.
    assert (Hget : JsMap.get k (items (storage w)) = None)
      by (rewrite Hs; apply lifetime_has_no_id_below_1; lia).
    unfold JsMap.has. rewrite Hget. split; [easy |].
    now intros data ->.
Qed.

(** C7, as the code has it. A POST request whose body is not an object,
    or has no [name] or no [category], or has one of them that is not
    text, is answered 400 "Invalid item data" with the storage not called
    and nothing changed. The text of [name] is not looked at: a body whose
    [name] is the empty string, with a text [category] and [completed] a
    boolean or left out, is answered 200 with the created item, whose name
    is empty, and the item is stored. *)
Theorem post_items_checks_types_only (w : World) (req_body : JSON) :
  (is_text (field "name" req_body) = false
   \/ is_text (field "category" req_body) = false ->
   post_items JSON_stringify req_body w
   = (res_status_json 400 "Invalid item data", w, []))
  /\ (forall c ob,
        field "name" req_body = Some (JString EmptyString) ->
        field "category" req_body = Some (JString c) ->
        Zod.optional Zod.boolean (field "completed" req_body) = Some ob ->
        let item := mkItem (currentId (storage w)) EmptyString c
                           (match ob with Some b => b | None => false end) in
        let r := post_items JSON_stringify req_body w in
        response r = res_json_item item
        /\ JsMap.get (currentId (storage w)) (items (storage (world_after r)))
           = Some item
        /\ In (Ev_storage (OpCreateItem (mkInsertItem EmptyString c ob))) (events r)).
Proof.
  rewrite post_items_run. split.
  - unfold insertItemSchema_safeParse, field.
    destruct req_body as [| | | | |properties]; try reflexivity.
    intros [H | H].
    + destruct (prop "name" properties) as [[| | | | |] |]; simpl in *;
        try reflexivity; discriminate.
    + destruct (Zod.string (prop "name" properties)); [| reflexivity].
      destruct (prop "category" properties) as [[| | | | |] |]; simpl in *;
        try reflexivity; discriminate.
  - intros c ob Hn Hc Hb item r. subst item r.
    unfold insertItemSchema_safeParse, field in *.
    destruct req_body as [| | | | |properties]; try discriminate.
    rewrite Hn, Hc, Hb. simpl.
    unfold response, world_after, events. simpl.
    destruct (BroadcastFacts.broadcastUpdate_run JSON_stringify
                (with_storage w
                   (snd (Storage.createItem (mkInsertItem EmptyString c ob)
                                            (storage w)))))
      as [Hs _].
    simpl in Hs. unfold world_after in Hs.
    repeat split; [| now left].
    rewrite Hs. simpl. apply JsMapFacts.get_set_same.
Qed.

End RouteClaims.

(* ===================================================================== *)
(** * The category classifier *)
(* ===================================================================== *)

Module CategoriesFacts.
Import Categories.

Lemma prefix_app (item s : string) :
  String.prefix item s = true <-> exists b, s = (item ++ b)%string.
Proof.
  revert s. induction item as [| c item IH]; intros [| c' s]; simpl.
  - split; [intros _; now exists EmptyString | easy].
  - split; [intros _; now exists (String c' s) | easy].
  - split; [easy | intros [b H]; discriminate].
  - destruct (ascii_dec c c') as [<- | Hne].
    + rewrite IH. split; intros [b H]; exists b; congruence.
    + split; [easy | intros [b H]; congruence].
Qed.

(** [includes] is the substring test. *)
Lemma includes_substring (s item : string) :
  includes s item = true <-> exists a b, s = (a ++ item ++ b)%string.
Proof.
  induction s as [| c s IH]; cbn [includes].
  - destruct (String.prefix item EmptyString) eqn:E.
    + split; [intros _ | easy]. apply prefix_app in E.
      destruct E as [b E]. now exists EmptyString, b.
    + split; [easy |]. intros [a [b H]].
      destruct a; [| discriminate]. simpl in H.
      assert (String.prefix item EmptyString = true) by (apply prefix_app; eauto).
      congruence.
  - destruct (String.prefix item (String c s)) eqn:E.
    + split; [intros _ | easy]. apply prefix_app in E.
      destruct E as [b E]. now exists EmptyString, b.
    + rewrite IH. split.
      * intros [a [b H]]. exists (String c a), b. simpl. now f_equal.
      * intros [a [b H]]. destruct a as [| c' a]; simpl in H.
        -- assert (String.prefix item (String c s) = true)
             by (apply prefix_app; eauto).
           congruence.
        -- injection H as _ H. eauto.
Qed.

(** The loop returns at the first entry with a keyword in the name. *)
Lemma for_of_first (lowercaseName : string)
      (pre : list (string * list string)) (category : string)
      (items : list string) (post : list (string * list string)) :
  Forall (no_match lowercaseName) pre ->
  some_included lowercaseName items = true ->
  for_of (pre ++ (category, items) :: post) lowercaseName = category.
Proof.
  intros Hpre Hm. induction Hpre as [| [c kws] pre Hc Hpre IH]; simpl.
  - now rewrite Hm.
  - unfold no_match in Hc. simpl in Hc. now rewrite Hc.
Qed.

Lemma for_of_none (lowercaseName : string)
      (entries : list (string * list string)) :
  Forall (no_match lowercaseName) entries ->
  for_of entries lowercaseName = "övrigt".
Proof.
  induction 1 as [| [c kws] entries Hc Hall IH]; simpl; [easy |].
  unfold no_match in Hc. simpl in Hc. now rewrite Hc.
Qed.

Lemma for_of_key (lowercaseName : string)
      (entries : list (string * list string)) :
  In (for_of entries lowercaseName) (map fst entries)
  \/ for_of entries lowercaseName = "övrigt".
Proof.
  induction entries as [| [c kws] entries IH]; simpl; [now right |].
  destruct (some_included lowercaseName kws); [now left; left |].
  destruct IH; [left; now right | now right].
Qed.

Section WithLowerCase.

Variable toLowerCase : string -> string.

(** C10. [categorizeItem] returns, for every name, one of the nine
    declared category keys. Reading the table in declaration order, it
    returns the key of the first category one of whose keywords occurs
    as a substring in the lower-cased name, whatever later categories
    match as well, and "övrigt" when no keyword of any category
    occurs. *)
Theorem categorizeItem_first_matching_category (name : string) :
  let lowercaseName := toLowerCase name in
  let result := categorizeItem toLowerCase name in
  map fst categories
  = ["frukt"; "grönsaker"; "mejeri"; "kött"; "skafferi"; "snacks";
     "dryck"; "hushåll"; "övrigt"]
  /\ In result (map fst categories)
  /\ (forall pre category items post,
         categories = pre ++ (category, items) :: post ->
         Forall (no_match lowercaseName) pre ->
         some_included lowercaseName items = true ->
         result = category)
  /\ (Forall (no_match lowercaseName) categories -> result = "övrigt")
  /\ (forall items,
         some_included lowercaseName items = true <->
         exists item a b,
           In item items /\ lowercaseName = (a ++ item ++ b)%string).
Proof.
  intros lowercaseName result. unfold result, categorizeItem.
  fold lowercaseName.
  repeat match goal with |- _ /\ _ => split end.
  - reflexivity.
  - destruct (for_of_key lowercaseName categories) as [H | ->]; [easy |].
    simpl. tauto.
  - intros pre category items post -> Hpre Hm. now apply for_of_first.
  - apply for_of_none.
  - intros items. unfold some_included. rewrite existsb_exists.
    split.
    + intros [item [Hin Hi]]. apply includes_substring in Hi.
      destruct Hi as [a [b Hi]]. now exists item, a, b.
    + intros [item [a [b [Hin Hi]]]]. exists item. split; [easy |].
      apply includes_substring. eauto.
Qed.

End WithLowerCase.

End CategoriesFacts.

(* ===================================================================== *)
(** * Worked requests *)
(* ===================================================================== *)

Module Scenarios.
Import Examples.

Example busy_broadcast :
  events (broadcastUpdate stringify busy)
  = [Ev_broadcastUpdate; Ev_storage OpGetItems;
     Ev_stringify (mkMessage "UPDATE"
                     [mkItem 1 "mjölk" "mejeri" false;
                      mkItem 2 "bröd" "skafferi" true]);
     Ev_send 1 "UPDATE [1:mjölk,2:bröd]";
     Ev_send 3 "UPDATE [1:mjölk,2:bröd]";
     Ev_console_error "WebSocket send error:"]
  /\ clients (world_after (broadcastUpdate stringify busy)) = [1; 2]%nat.
Proof. split; reflexivity. Qed.

(** The scenario of the specification: create, complete, list, delete. *)
Example scenario :
  let r1 := post_items stringify
              (JObject [("name", JString "milk");
                        ("category", JString "dairy")]) fresh in
  let r2 := patch_item stringify "1" body_completed (world_after r1) in
  let r3 := get_items (world_after r2) in
  let r4 := delete_item stringify "1" (world_after r3) in
  let r5 := get_items (world_after r4) in
  response r1 = res_json_item (mkItem 1 "milk" "dairy" false)
  /\ response r2 = res_json_item (mkItem 1 "milk" "dairy" true)
  /\ response r3 = res_json_items [mkItem 1 "milk" "dairy" true]
  /\ response r4 = res_status_end 204
  /\ response r5 = res_json_items [].
Proof. repeat split; reflexivity. Qed.

Example patch_999_on_empty_store :
  patch_item stringify "999" body_completed fresh
  = (res_status_json 404 "Item not found", fresh,
     [Ev_storage (OpUpdateItem 999 (mkUpdateItemData (Some true) None None));
      Ev_console_error "Update item error:"]).
Proof. reflexivity. Qed.

Example categorize_examples :
  map (Categories.categorizeItem Categories.latin1_toLowerCase)
      ["Tomatjuice"; "ÄPPLE"; "Nötter"; "Mjölk"; "Tvättmedel"; "spik"]
  = ["grönsaker"; "frukt"; "snacks"; "mejeri"; "hushåll"; "övrigt"].
Proof. reflexivity. Qed.

End Scenarios.

(* ===================================================================== *)
(** * The theorems at concrete requests *)
(* ===================================================================== *)

(** The open socket 1 of [Examples.busy] is sent the snapshot although the
    [send] of socket 3 raises. *)
Lemma broadcast_reaches_open_socket :
  In (Ev_send 1 "UPDATE [1:mjölk,2:bröd]")
     (events (broadcastUpdate Examples.stringify Examples.busy)).
Proof.
  apply (proj1 (proj2 (proj2
           (broadcastUpdate_pushes_one_snapshot_to_open_clients
              Examples.stringify Examples.busy DELETE_items []
              Examples.sockets))) 1%nat).
  - simpl. auto.
  - reflexivity.
Defined.

(** Socket 2 of [Examples.busy] is tracked and closing: the broadcast sends
    it nothing. *)
Lemma broadcast_leaves_out_closing_socket :
  In 2%nat (clients Examples.busy)
  /\ readyState (sockets Examples.busy 2%nat) = CLOSING
  /\ forall message,
      ~ In (Ev_send 2 message)
           (events (broadcastUpdate Examples.stringify Examples.busy)).
Proof.
  split; [simpl; auto |]. split; [reflexivity |].
  intros message H. vm_compute in H.
  repeat (destruct H as [H | H]; [discriminate H |]). exact H.
Defined.

Lemma closing_socket_stays_tracked :
  In 2%nat
     (clients (world_after (broadcastUpdate Examples.stringify Examples.busy))).
Proof.
  apply (broadcastUpdate_skips_connections_not_open
           Examples.stringify Examples.busy 2%nat).
  - simpl. auto.
  - simpl. discriminate.
Defined.

Lemma delete_999_is_not_found :
  delete_item Examples.stringify "999" Examples.busy
  = (res_status_json 404 "Item not found", Examples.busy,
     [Ev_storage (OpDeleteItem 999); Ev_console_error "Delete item error:"]).
Proof.
  apply (absent_id_is_NotFound_and_changes_nothing
           Examples.stringify Examples.busy 999 "999" Examples.body_completed).
  - reflexivity.
  - reflexivity.
Defined.

(** [DELETE /api/items/-5] and [PATCH /api/items/-5]: the segment parses to
    -5, the storage is asked, the answer is 404 and not 400. *)
Lemma negative_id_is_looked_up :
  parseInt "-5" = Some (-5)
  /\ delete_item Examples.stringify "-5" Examples.fresh
     = (res_status_json 404 "Item not found", Examples.fresh,
        [Ev_storage (OpDeleteItem (-5));
         Ev_console_error "Delete item error:"])
  /\ patch_item Examples.stringify "-5" Examples.body_completed Examples.fresh
     = (res_status_json 404 "Item not found", Examples.fresh,
        [Ev_storage (OpUpdateItem (-5) (mkUpdateItemData (Some true) None None));
         Ev_console_error "Update item error:"]).
Proof. repeat split; reflexivity. Defined.

Lemma negative_id_answer_is_404 :
  status (response (delete_item Examples.stringify "-5" Examples.fresh)) = 404
  /\ patch_item Examples.stringify "abc" Examples.body_completed Examples.fresh
     = (res_status_json 400 "Invalid ID", Examples.fresh, []).
Proof.
  pose proof (invalid_id_exactly_when_parseInt_is_NaN
                Examples.stringify Examples.fresh "-5" Examples.body_completed)
    as [_ [_ H]].
  pose proof (invalid_id_exactly_when_parseInt_is_NaN
                Examples.stringify Examples.fresh "abc" Examples.body_completed)
    as [H' _].
  split.
  - apply (H (-5) []); [reflexivity | lia | reflexivity].
  - apply H'. reflexivity.
Defined.

(** [POST /api/items] with an empty [name] and the category "övrigt" on a fresh
    server: answered 200, and the item with the empty name is stored. *)
Lemma empty_name_is_accepted :
  let r := post_items Examples.stringify Examples.body_empty_name
                      Examples.fresh in
  response r = res_json_item (mkItem 1 EmptyString "övrigt" false)
  /\ status (response r) = 200
  /\ fst (Storage.getItems (storage (world_after r)))
     = Resolved [mkItem 1 EmptyString "övrigt" false].
Proof. repeat split; reflexivity. Defined.

Lemma post_items_checks_types_only_witness :
  post_items Examples.stringify
             (JObject [("name", JNumber 3); ("category", JString "x")])
             Examples.fresh
  = (res_status_json 400 "Invalid item data", Examples.fresh, [])
  /\ response (post_items Examples.stringify Examples.body_empty_name
                          Examples.fresh)
     = res_json_item (mkItem 1 EmptyString "övrigt" false).
Proof.
  split.
  - apply (post_items_checks_types_only Examples.stringify). left. reflexivity.
  - apply (proj2 (post_items_checks_types_only
                    Examples.stringify Examples.fresh Examples.body_empty_name)
                 "övrigt" None); reflexivity.
Defined.

(** "Tomatjuice" has a keyword of grönsaker and one of dryck: grönsaker is
    declared first. *)
Lemma tomatjuice_is_a_vegetable :
  Categories.categorizeItem Categories.latin1_toLowerCase "Tomatjuice"
  = "grönsaker".
Proof.
  apply (proj1 (proj2 (proj2
           (CategoriesFacts.categorizeItem_first_matching_category
              Categories.latin1_toLowerCase "Tomatjuice")))
           (firstn 1 Categories.categories) "grönsaker"
           ["morot"; "potatis"; "tomat"; "lök"; "sallad"; "gurka"; "broccoli"]
           (skipn 2 Categories.categories)).
  - reflexivity.
  - repeat constructor.
  - reflexivity.
Defined.

(* ===================================================================== *)
(** * Further properties of the storage *)
(* ===================================================================== *)

Module StoreReplay.
Import JsMapFacts Ascending AscendingFacts StoreFacts.

Lemma get_delete_same (k : Z) (m : JsMap.t) :
  NoDup (JsMap.keys m) -> JsMap.get k (JsMap.delete k m) = None.
Proof.
  intros Hnd. apply get_None_keys. rewrite keys_delete by easy.
  intros Hin. apply filter_In in Hin. destruct Hin as [_ Hin].
  now rewrite Z.eqb_refl in Hin.
Qed.

(** Entries filed under other ids are not touched by a map over the id. *)
Lemma values_map_other (k : Z) (f : Item -> Item) (m : JsMap.t) :
  Forall (fun e => id (snd e) = fst e) m ->
  ~ In k (JsMap.keys m) ->
  map (fun v => if id v =? k then f v else v) (JsMap.values m)
  = JsMap.values m.
Proof.
  induction 1 as [| e m Hid Hall IH]; simpl; intros Hk; [easy |].
  destruct e as [k' v']. simpl in *. rewrite Hid.
  destruct (k' =? k) eqn:E; [apply Z.eqb_eq in E; tauto |].
  f_equal. apply IH. tauto.
Qed.

Lemma values_filter_other (k : Z) (m : JsMap.t) :
  Forall (fun e => id (snd e) = fst e) m ->
  ~ In k (JsMap.keys m) ->
  filter (fun v => negb (id v =? k)) (JsMap.values m) = JsMap.values m.
Proof.
  induction 1 as [| e m Hid Hall IH]; simpl; intros Hk; [easy |].
  destruct e as [k' v']. simpl in *. rewrite Hid.
  destruct (k' =? k) eqn:E; [apply Z.eqb_eq in E; tauto |].
  simpl. f_equal. apply IH. tauto.
Qed.

Lemma values_set_present (k : Z) (f : Item -> Item) (item : Item)
      (m : JsMap.t) :
  Forall (fun e => id (snd e) = fst e) m ->
  NoDup (JsMap.keys m) ->
  JsMap.get k m = Some item ->
  JsMap.values (JsMap.set k (f item) m)
  = map (fun v => if id v =? k then f v else v) (JsMap.values m).
Proof.
  induction 1 as [| e m Hid Hall IH]; simpl; intros Hnd Hget;
    [discriminate |].
  destruct e as [k' v']. simpl in *.
  apply NoDup_cons_iff in Hnd. destruct Hnd as [Hnotin Hnd'].
  rewrite Hid. clear Hid. destruct (k' =? k) eqn:E; rewrite ?E in Hget.
  - apply Z.eqb_eq in E. subst k'. injection Hget as ->. simpl. f_equal.
    symmetry. now apply values_map_other.
  - simpl. f_equal. now apply IH.
Qed.

Lemma values_delete (k : Z) (m : JsMap.t) :
  Forall (fun e => id (snd e) = fst e) m ->
  NoDup (JsMap.keys m) ->
  JsMap.values (JsMap.delete k m)
  = filter (fun v => negb (id v =? k)) (JsMap.values m).
Proof.
  induction 1 as [| e m Hid Hall IH]; simpl; intros Hnd; [easy |].
  destruct e as [k' v']. simpl in *.
  apply NoDup_cons_iff in Hnd. destruct Hnd as [Hnotin Hnd'].
  rewrite Hid. clear Hid. destruct (k' =? k) eqn:E; simpl.
  - apply Z.eqb_eq in E. subst k'. symmetry. now apply values_filter_other.
  - f_equal. now apply IH.
Qed.

(** One operation on the storage is one step of the list model. *)
Lemma list_step_apply_op (op : StoreOp) (s : MemStorage) :
  Inv s ->
  (JsMap.values (items (apply_op op s)), currentId (apply_op op s))
  = list_step (JsMap.values (items s), currentId s) op.
Proof.
  intros HI. pose proof (Inv_NoDup s HI) as Hnd.
  pose proof (Inv_fresh s HI) as Hfresh.
  destruct HI as [_ _ _ Hid].
  destruct op as [| insertItem | id0 data | id0 |]; simpl.
  - reflexivity.
  - rewrite set_absent by easy. unfold JsMap.values. now rewrite map_app.
  - unfold Storage.updateItem.
    destruct (JsMap.get id0 (items s)) as [item |] eqn:E; simpl.
    + now rewrite (values_set_present id0 (fun v => Storage.merge v data)).
    + rewrite values_map_other; [easy | easy |]. now apply get_None_keys.
  - unfold Storage.deleteItem, JsMap.has.
    destruct (JsMap.get id0 (items s)) as [item |] eqn:E; simpl.
    + now rewrite values_delete.
    + rewrite values_filter_other; [easy | easy |]. now apply get_None_keys.
  - reflexivity.
Qed.

(** One operation on the storage is one step of the finite-map model. *)
Lemma lookup_step_apply_op (op : StoreOp) (s : MemStorage) (k : Z) :
  Inv s -> JsMap.get k (items (apply_op op s)) = lookup_step s op k.
Proof.
  intros HI. pose proof (Inv_NoDup s HI) as Hnd.
  destruct op as [| insertItem | id0 data | id0 |]; simpl.
  - reflexivity.
  - destruct (k =? currentId s) eqn:E.
    + apply Z.eqb_eq in E. subst k. apply get_set_same.
    + apply Z.eqb_neq in E. apply get_set_other. congruence.
  - unfold Storage.updateItem. destruct (k =? id0) eqn:E.
    + apply Z.eqb_eq in E. subst k.
      destruct (JsMap.get id0 (items s)) as [item |] eqn:G; simpl;
        [apply get_set_same | easy].
    + apply Z.eqb_neq in E.
      destruct (JsMap.get id0 (items s)) as [item |] eqn:G; simpl; [| easy].
      apply get_set_other. congruence.
  - unfold Storage.deleteItem.
    destruct (negb (JsMap.has id0 (items s))) eqn:H; simpl.
    + destruct (k =? id0) eqn:E; [| easy]. apply Z.eqb_eq in E. subst k.
      unfold JsMap.has in H. now destruct (JsMap.get id0 (items s)).
    + destruct (k =? id0) eqn:E.
      * apply Z.eqb_eq in E. subst k. now apply get_delete_same.
      * apply Z.eqb_neq in E. apply get_delete_other. congruence.
  - reflexivity.
Qed.

(** An id below the counter that is not stored is never stored again. *)
Lemma absent_stays_absent (ops : list StoreOp) (s : MemStorage) (k : Z) :
  Inv s -> k < currentId s -> JsMap.get k (items s) = None ->
  JsMap.get k (items (run_ops ops s)) = None.
Proof.
  revert s. induction ops as [| op ops IH]; intros s HI Hk Hget; [easy |].
  simpl. apply IH.
  - now apply Inv_apply_op.
  - destruct (currentId_apply_op op s) as [-> _]. lia.
  - rewrite lookup_step_apply_op by easy.
    destruct op as [| insertItem | id0 data | id0 |]; simpl; rewrite ?Hget;
      try easy.
    + destruct (k =? currentId s) eqn:E; [| easy]. apply Z.eqb_eq in E. lia.
    + now destruct (k =? id0).
    + now destruct (k =? id0).
Qed.

(** X1. In a process lifetime the list [getItems] shows is the replay of
    the operations on a plain list: a create appends the new item, an update
    rewrites the item of that id where it stands, a delete strikes the item
    of that id out, a delete-all empties the list; only a create moves the
    counter. *)
Theorem getItems_is_replay_of_operations (ops : list StoreOp) :
  let s := run_ops ops Storage.constructor in
  (JsMap.values (items s), currentId s) = fold_left list_step ops ([], 1).
Proof.
  intros s. subst s.
  change ([], 1) with (JsMap.values (items Storage.constructor),
                       currentId Storage.constructor).
  generalize Inv_constructor. generalize Storage.constructor.
  induction ops as [| op ops IH]; intros s HI; cbn [run_ops fold_left];
    [easy |].
  rewrite <- list_step_apply_op by easy. apply IH. now apply Inv_apply_op.
Qed.

(** X2. In a process lifetime the storage answers a lookup by id like a
    finite map: after a create the new id finds the new item, after an
    update the id finds the merged item, after a delete or a delete-all
    the id finds nothing, and every other id finds what it found before. *)
Theorem lookup_follows_finite_map
        (ops : list StoreOp) (op : StoreOp) (k : Z) :
  let s := run_ops ops Storage.constructor in
  JsMap.get k (items (apply_op op s)) = lookup_step s op k
  /\ JsMap.get k (items (run_ops (ops ++ [op]) Storage.constructor))
     = lookup_step s op k.
Proof.
  intros s. split.
  - apply lookup_step_apply_op, Inv_lifetime.
  - rewrite run_ops_app. simpl. apply lookup_step_apply_op, Inv_lifetime.
Qed.

Lemma merge_overlay (item : Item) (first later : UpdateItemData) :
  Storage.merge (Storage.merge item first) later
  = Storage.merge item (overlay first later).
Proof.
  unfold Storage.merge, overlay. simpl.
  destruct (upd_name later), (upd_category later), (upd_completed later);
    reflexivity.
Qed.

Lemma set_set (k : Z) (v v' : Item) (m : JsMap.t) :
  JsMap.set k v' (JsMap.set k v m) = JsMap.set k v' m.
Proof.
  induction m as [| [k0 v0] m IH]; simpl.
  - now rewrite Z.eqb_refl.
  - destruct (k0 =? k) eqn:E; simpl.
    + now rewrite Z.eqb_refl.
    + now rewrite E, IH.
Qed.

(** X3. Two updates of the same id in a row leave the storage as the one
    update with the fields of both does, the later update winning where
    both set a field, and resolve or reject alike; so an update repeated
    changes nothing more. *)
Theorem updateItem_twice_is_overlay
        (s : MemStorage) (k : Z) (first later : UpdateItemData) :
  Storage.updateItem k later (snd (Storage.updateItem k first s))
  = Storage.updateItem k (overlay first later) s
  /\ Storage.updateItem k first (snd (Storage.updateItem k first s))
     = Storage.updateItem k first s.
Proof.
  assert (H : forall d1 d2,
             Storage.updateItem k d2 (snd (Storage.updateItem k d1 s))
             = Storage.updateItem k (overlay d1 d2) s).
  { intros d1 d2. unfold Storage.updateItem.
    destruct (JsMap.get k (items s)) as [item |] eqn:E; simpl.
    - rewrite get_set_same, set_set, merge_overlay. reflexivity.
    - now rewrite E. }
  split; [apply H |]. rewrite H. unfold Storage.updateItem.
  destruct (JsMap.get k (items s)) as [item |]; [| easy].
  rewrite <- merge_overlay.
  assert (Hm : Storage.merge (Storage.merge item first) first
               = Storage.merge item first).
  { unfold Storage.merge. simpl.
    destruct (upd_name first), (upd_category first), (upd_completed first);
      reflexivity. }
  now rewrite Hm.
Qed.

(** X4. In a process lifetime a delete of an id that is stored resolves,
    takes exactly that item out of the list and leaves the counter; from
    then on, whatever operations follow, the id finds nothing, and an
    update or a delete of it is rejected with "Item not found". *)
Theorem deleted_id_stays_deleted
        (ops later : list StoreOp) (k : Z) (data : UpdateItemData) :
  let s := run_ops ops Storage.constructor in
  JsMap.has k (items s) = true ->
  let s' := snd (Storage.deleteItem k s) in
  let s'' := run_ops later s' in
  fst (Storage.deleteItem k s) = Resolved tt
  /\ JsMap.values (items s')
     = filter (fun v => negb (id v =? k)) (JsMap.values (items s))
  /\ currentId s' = currentId s
  /\ JsMap.get k (items s'') = None
  /\ Storage.updateItem k data s'' = (Rejected "Item not found", s'')
  /\ Storage.deleteItem k s'' = (Rejected "Item not found", s'').
Proof.
  intros s Hhas s' s''. pose proof (Inv_lifetime ops) as HI. fold s in HI.
  assert (Hs' : s' = apply_op (OpDeleteItem k) s) by reflexivity.
  assert (Hget : JsMap.get k (items s'') = None).
  { apply absent_stays_absent.
    - rewrite Hs'. now apply Inv_apply_op.
    - rewrite Hs'. destruct (currentId_apply_op (OpDeleteItem k) s) as [-> _].
      apply has_keys in Hhas. destruct HI as [_ _ Hb _].
      rewrite Forall_forall in Hb. apply Hb in Hhas. lia.
    - rewrite Hs', lookup_step_apply_op by easy. simpl.
      now rewrite Z.eqb_refl. }
  repeat match goal with |- _ /\ _ => split end.
  - unfold Storage.deleteItem. now rewrite Hhas.
  - pose proof (list_step_apply_op (OpDeleteItem k) s HI) as H.
    simpl in H. now injection H.
  - unfold s', Storage.deleteItem. now destruct (negb _).
  - exact Hget.
  - unfold Storage.updateItem. now rewrite Hget.
  - unfold Storage.deleteItem, JsMap.has. now rewrite Hget.
Qed.

End StoreReplay.

Lemma deleted_id_stays_deleted_witness :
  Storage.deleteItem
    1 (run_ops [OpCreateItem (mkInsertItem "te" "dryck" None)]
               (snd (Storage.deleteItem 1 two_items)))
  = (Rejected "Item not found",
     run_ops [OpCreateItem (mkInsertItem "te" "dryck" None)]
             (snd (Storage.deleteItem 1 two_items))).
Proof.
  apply (StoreReplay.deleted_id_stays_deleted
           [OpCreateItem (mkInsertItem "mjölk" "mejeri" None);
            OpCreateItem (mkInsertItem "bröd" "skafferi" (Some true))]
           [OpCreateItem (mkInsertItem "te" "dryck" None)]
           1 (mkUpdateItemData None None None)).
  reflexivity.
Defined.

(* ===================================================================== *)
(** * Further properties of the broadcast channel and the routes *)
(* ===================================================================== *)

Module ServerFacts.
Import BroadcastFacts HandlerFacts StoreFacts.

Section WithSerializer.

Variable JSON_stringify : Message -> string.

Abbreviation broadcast := (broadcastUpdate JSON_stringify).

Lemma filter_push_events (p : Event -> bool) (sk : nat -> Socket)
      (message : string) (cs : list nat) :
  (forall c, p (Ev_send c message) = false) ->
  p (Ev_console_error "WebSocket send error:") = false ->
  filter p (flat_map (push_events sk message) cs) = [].
Proof.
  intros H1 H2. apply length_zero_iff_nil. now apply (count_push_events p).
Qed.

Lemma broadcast_events (w : World) :
  events (broadcast w)
  = [Ev_broadcastUpdate; Ev_storage OpGetItems; Ev_stringify (snapshot w)]
    ++ flat_map (push_events (sockets w) (JSON_stringify (snapshot w)))
                (clients w).
Proof. now destruct (broadcastUpdate_run JSON_stringify w) as [_ [_ [_ H]]]. Qed.

Lemma broadcast_storage (w : World) :
  storage (world_after (broadcast w)) = storage w.
Proof. now destruct (broadcastUpdate_run JSON_stringify w) as [H _]. Qed.

Lemma broadcast_sockets (w : World) :
  sockets (world_after (broadcast w)) = sockets w.
Proof. now destruct (broadcastUpdate_run JSON_stringify w) as [_ [H _]]. Qed.

Lemma broadcast_clients (w : World) :
  clients (world_after (broadcast w))
  = filter (fun x => negb (fails (sockets w) x)) (clients w).
Proof. now destruct (broadcastUpdate_run JSON_stringify w) as [_ [_ [H _]]]. Qed.

Lemma broadcast_stringify (w : World) :
  filter is_stringify (events (broadcast w)) = [Ev_stringify (snapshot w)].
Proof.
  rewrite broadcast_events, filter_app, filter_push_events by easy.
  reflexivity.
Qed.

(** Who is sent what in a broadcast. *)
Lemma broadcast_sends (w : World) (c : nat) (message : string) :
  In (Ev_send c message) (events (broadcast w)) <->
  In c (clients w) /\ is_open (sockets w) c = true
  /\ message = JSON_stringify (snapshot w).
Proof.
  rewrite broadcast_events, in_app_iff, In_push_events. split.
  - intros [H | [d [Hd [Ho [E | [_ E]]]]]]; [| | discriminate].
    + simpl in H. intuition discriminate.
    + injection E as -> ->. auto.
  - intros [Hc [Ho ->]]. right. exists c. auto.
Qed.

Lemma storage_calls_app (a b : list Event) :
  storage_calls (a ++ b) = storage_calls a ++ storage_calls b.
Proof. apply flat_map_app. Qed.

Lemma storage_calls_broadcast (w : World) :
  storage_calls (events (broadcast w)) = [OpGetItems].
Proof.
  rewrite broadcast_events, storage_calls_app. simpl. f_equal.
  induction (clients w) as [| c cs IH]; [easy |].
  simpl. rewrite storage_calls_app, IH, app_nil_r.
  unfold push_events. destruct (is_open (sockets w) c); [| easy].
  now destruct (send_throws (sockets w c)).
Qed.

(** The snapshot is a matter of the storage alone. *)
Lemma snapshot_storage (w w' : World) :
  storage w' = storage w -> snapshot w' = snapshot w.
Proof. unfold snapshot. now intros ->. Qed.

(** What a mutation request comes to: it fails and nothing is changed, or
    one storage operation is applied and one broadcast follows. *)
Lemma handle_run (r : Mutation) (w : World) :
  (request_fails r (storage w) = true
   /\ world_after (handle JSON_stringify r w) = w
   /\ (events (handle JSON_stringify r w) = []
       \/ exists op label,
           events (handle JSON_stringify r w)
           = [Ev_storage op; Ev_console_error label]
           /\ apply_op op (storage w) = storage w))
  \/ (request_fails r (storage w) = false
      /\ exists op,
          let w1 := with_storage w (apply_op op (storage w)) in
          world_after (handle JSON_stringify r w) = world_after (broadcast w1)
          /\ events (handle JSON_stringify r w)
             = Ev_storage op :: events (broadcast w1)).
Proof.
  destruct r as [b | seg b | seg |]; simpl;
    rewrite ?post_items_run, ?patch_item_run, ?delete_item_run,
      ?delete_items_run.
  - destruct (insertItemSchema_safeParse b) as [d |]; [right | left; auto].
    split; [easy |]. now exists (OpCreateItem d).
  - destruct (parseInt seg) as [k |]; [| left; auto].
    destruct (updateItemSchema_safeParse b) as [d |]; [| left; auto].
    unfold JsMap.has.
    destruct (JsMap.get k (items (storage w))) as [item |] eqn:E.
    + right. split; [easy |]. exists (OpUpdateItem k d). simpl.
      unfold Storage.updateItem. now rewrite E.
    + left. repeat split. right. exists (OpUpdateItem k d). eexists.
      split; [reflexivity |]. simpl. unfold Storage.updateItem. now rewrite E.
  - destruct (parseInt seg) as [k |]; [| left; auto].
    destruct (JsMap.has k (items (storage w))) eqn:E.
    + right. split; [easy |]. exists (OpDeleteItem k). simpl.
      unfold Storage.deleteItem. now rewrite E.
    + left. repeat split. right. exists (OpDeleteItem k). eexists.
      split; [reflexivity |]. simpl. unfold Storage.deleteItem. now rewrite E.
  - right. split; [easy |]. now exists OpDeleteAllItems.
Qed.

(** X5. The broadcast that follows a successful create, update or delete
    serializes the list as the mutation left it, and every message sent is
    that serialization; a failed request serializes and sends nothing. A GET
    right after answers with the same list, changes nothing and does not
    broadcast. *)
Theorem mutation_broadcasts_the_new_list (r : Mutation) (w : World) :
  let res := handle JSON_stringify r w in
  let w' := world_after res in
  filter is_stringify (events res)
  = (if request_fails r (storage w) then [] else [Ev_stringify (snapshot w')])
  /\ (forall c message,
         In (Ev_send c message) (events res) ->
         request_fails r (storage w) = false
         /\ message = JSON_stringify (snapshot w'))
  /\ get_items w'
     = (res_json_items (JsMap.values (items (storage w'))), w',
        [Ev_storage OpGetItems]).
Proof.
  intros res w'. subst res w'.
  assert (Hget : forall w0,
             get_items w0
             = (res_json_items (JsMap.values (items (storage w0))), w0,
                [Ev_storage OpGetItems]))
    by (intros w0; now destruct w0).
  destruct (handle_run r w) as [[Hf [Hw He]] | [Hf [op [Hw He]]]];
    rewrite Hf.
  - repeat split; try apply Hget.
    + destruct He as [-> | [op [label [-> _]]]]; reflexivity.
    + exfalso. destruct He as [He | [op [label [He _]]]]; rewrite He in H;
        simpl in H; intuition discriminate.
    + exfalso. destruct He as [He | [op [label [He _]]]]; rewrite He in H;
        simpl in H; intuition discriminate.
  - simpl in Hw, He. rewrite He, Hw.
    assert (Hsnap : snapshot (world_after
                                (broadcast (with_storage w (apply_op op (storage w)))))
                    = snapshot (with_storage w (apply_op op (storage w))))
      by (apply snapshot_storage, broadcast_storage).
    repeat split; try apply Hget.
    + simpl. now rewrite broadcast_stringify, Hsnap.
    + destruct H as [H | H]; [discriminate |].
      apply broadcast_sends in H. rewrite Hsnap. tauto.
Qed.

Lemma bind_ret_tt {A : Type} (m : M A) (w : World) :
  world_after (bind m (fun _ => ret tt) w) = world_after (m w)
  /\ events (bind m (fun _ => ret tt) w) = events (m w).
Proof.
  unfold bind, ret, world_after, events. destruct (m w) as [[a w1] e1].
  simpl. now rewrite app_nil_r.
Qed.

Lemma NoDup_clients_add (ws : nat) (cs : list nat) :
  NoDup cs ->
  NoDup (if existsb (Nat.eqb ws) cs then cs else cs ++ [ws]).
Proof.
  intros Hnd. destruct (existsb (Nat.eqb ws) cs) eqn:E; [easy |].
  apply NoDup_app; [easy | repeat constructor; easy |].
  intros x Hx [Heq | []]. subst x.
  assert (existsb (Nat.eqb ws) cs = true); [| congruence].
  apply existsb_exists. exists ws. now rewrite Nat.eqb_refl.
Qed.

(** One input: the storage moves by the storage calls in the trace, and
    the set of clients stays a set. *)
Lemma serve_step (i : Input) (w : World) :
  let r := serve JSON_stringify i w in
  storage (world_after r) = run_ops (storage_calls (events r)) (storage w)
  /\ (NoDup (clients w) -> NoDup (clients (world_after r))).
Proof.
  destruct i as [r | | ws | ws | ws | sk]; cbn [serve].
  - destruct (bind_ret_tt (handle JSON_stringify r) w) as [-> ->].
    destruct (handle_run r w) as [[_ [Hw He]] | [_ [op [Hw He]]]].
    + rewrite Hw. split; [| easy].
      destruct He as [-> | [op [label [-> Hop]]]]; simpl; congruence.
    + simpl in Hw, He. rewrite Hw, He. simpl.
      rewrite storage_calls_broadcast, broadcast_storage, broadcast_clients.
      split; [easy |]. simpl. apply NoDup_filter.
  - destruct (bind_ret_tt get_items w) as [-> ->]. now destruct w.
  - unfold on_connection, bind, clients_add. simpl.
    set (w1 := {| storage := storage w; clients := _; sockets := sockets w |}).
    pose proof (storage_calls_broadcast w1) as Hc.
    pose proof (broadcast_storage w1) as Hs.
    pose proof (broadcast_clients w1) as Hcl.
    destruct (broadcast w1) as [[u w2] e2].
    unfold world_after, events in *. simpl in *.
    rewrite Hc, Hs, Hcl. split; [easy |].
    intros Hnd. apply NoDup_filter. now apply NoDup_clients_add.
  - simpl. split; [easy |]. apply NoDup_filter.
  - simpl. split; [easy |]. apply NoDup_filter.
  - easy.
Qed.

Lemma serve_all_run (inputs : list Input) (w : World) :
  let r := forEach inputs (serve JSON_stringify) w in
  storage (world_after r) = run_ops (storage_calls (events r)) (storage w)
  /\ (NoDup (clients w) -> NoDup (clients (world_after r))).
Proof.
  revert w. induction inputs as [| i inputs IH]; intros w; simpl; [easy |].
  unfold bind. pose proof (serve_step i w) as Hi. simpl in Hi.
  destruct (serve JSON_stringify i w) as [[u w1] e1].
  specialize (IH w1). simpl in IH.
  destruct (forEach inputs (serve JSON_stringify) w1) as [[u2 w2] e2].
  unfold world_after, events in *. simpl in *.
  destruct Hi as [Hs1 Hn1], IH as [Hs2 Hn2].
  rewrite storage_calls_app, run_ops_app, <- Hs1, <- Hs2. auto.
Qed.

(** X6. Whatever requests and socket events the server has handled since
    it started, and however the sockets changed state in between: no
    connection is tracked twice, and the storage is the one a process
    lifetime made of the storage calls in the trace, in order, so its ids
    ascend in list order and every item is filed under its own id. *)
Theorem server_keeps_its_invariants
        (sk : nat -> Socket) (inputs : list Input) :
  let r := forEach inputs (serve JSON_stringify) (boot sk) in
  NoDup (clients (world_after r))
  /\ storage (world_after r)
     = run_ops (storage_calls (events r)) Storage.constructor
  /\ Inv (storage (world_after r)).
Proof.
  intros r. destruct (serve_all_run inputs (boot sk)) as [Hs Hn]. fold r in Hs, Hn.
  repeat split.
  - apply Hn. constructor.
  - exact Hs.
  - rewrite Hs. apply Inv_lifetime.
  - rewrite Hs. apply Inv_lifetime.
  - rewrite Hs. apply Inv_lifetime.
  - rewrite Hs. apply Inv_lifetime.
Qed.

(** X7. A tracked open socket whose [send] raises is sent the message
    once and is then no longer tracked: the set after a broadcast is the set
    before without those sockets. A second broadcast, the sockets being as
    they were, sends such a socket nothing, logs no error and drops no
    one. *)
Theorem failed_send_drops_the_socket (w : World) :
  let w1 := world_after (broadcast w) in
  let r2 := broadcast w1 in
  clients w1 = filter (fun c => negb (fails (sockets w) c)) (clients w)
  /\ (forall c,
         In c (clients w) -> fails (sockets w) c = true ->
         In (Ev_send c (JSON_stringify (snapshot w))) (events (broadcast w))
         /\ ~ In c (clients w1)
         /\ forall message, ~ In (Ev_send c message) (events r2))
  /\ count is_console_error (events r2) = O
  /\ clients (world_after r2) = clients w1.
Proof.
  intros w1 r2.
  assert (Hcl : clients w1
                = filter (fun c => negb (fails (sockets w) c)) (clients w))
    by apply broadcast_clients.
  assert (Hsk : sockets w1 = sockets w) by apply broadcast_sockets.
  assert (Hgone : forall c, fails (sockets w) c = true -> ~ In c (clients w1)).
  { intros c Hf Hin. rewrite Hcl in Hin. apply filter_In in Hin.
    destruct Hin as [_ Hin]. now rewrite Hf in Hin. }
  repeat match goal with |- _ /\ _ => split end.
  - exact Hcl.
  - intros c Hc Hf. repeat split.
    + apply broadcast_sends. repeat split; [easy |].
      unfold fails in Hf. now apply andb_prop in Hf.
    + now apply Hgone.
    + intros message Hin. apply broadcast_sends in Hin.
      destruct Hin as [Hin _]. now apply (Hgone c).
  - unfold r2. rewrite broadcast_events, count_app, count_errors_push_events.
    rewrite Hsk, Hcl. simpl.
    rewrite filter_filter_negb.
    rewrite (filter_ext _ (fun _ => false))
      by (intros x; now destruct (fails (sockets w) x)).
    now rewrite filter_false.
  - unfold r2. rewrite broadcast_clients, Hsk, Hcl, filter_filter_negb.
    apply filter_ext. intros x. now destruct (fails (sockets w) x).
Qed.

Lemma on_connection_run (ws : nat) (w : World) :
  let w1 := {| storage := storage w;
               clients := if existsb (Nat.eqb ws) (clients w) then clients w
                          else clients w ++ [ws];
               sockets := sockets w |} in
  world_after (on_connection JSON_stringify ws w) = world_after (broadcast w1)
  /\ events (on_connection JSON_stringify ws w) = events (broadcast w1).
Proof.
  unfold on_connection, bind, clients_add, world_after, events. simpl.
  now destruct (broadcast _) as [[u w2] e2].
Qed.

(** X8. When a socket connects it is added to the tracked set, at the end
    and only if it is not there yet, and one broadcast follows: the current
    list goes to the new socket and to every socket tracked before, as far
    as they are open. The storage is not changed. The new socket stays
    tracked unless it is open and its [send] raises. *)
Theorem connection_broadcasts_to_all_sockets (ws : nat) (w : World) :
  let r := on_connection JSON_stringify ws w in
  count is_broadcast (events r) = 1%nat
  /\ storage (world_after r) = storage w
  /\ clients (world_after r)
     = filter (fun c => negb (fails (sockets w) c))
              (if existsb (Nat.eqb ws) (clients w) then clients w
               else clients w ++ [ws])
  /\ (forall c message,
         In (Ev_send c message) (events r) <->
         (c = ws \/ In c (clients w)) /\ is_open (sockets w) c = true
         /\ message = JSON_stringify (snapshot w))
  /\ (In ws (clients (world_after r)) <-> fails (sockets w) ws = false).
Proof.
  intros r. subst r. destruct (on_connection_run ws w) as [Hw He].
  simpl in Hw, He. rewrite Hw, He.
  set (tracked := if existsb (Nat.eqb ws) (clients w) then clients w
                  else clients w ++ [ws]).
  assert (Htracked : forall c, In c tracked <-> c = ws \/ In c (clients w)).
  { intros c. unfold tracked.
    destruct (existsb (Nat.eqb ws) (clients w)) eqn:E.
    - split; [auto |]. intros [-> | H]; [| easy].
      apply existsb_exists in E. destruct E as [x [Hx E]].
      apply Nat.eqb_eq in E. now subst.
    - rewrite in_app_iff. simpl. intuition. }
  repeat match goal with |- _ /\ _ => split end.
  - apply count_broadcast_run.
  - now rewrite broadcast_storage.
  - now rewrite broadcast_clients.
  - intros c message. split.
    + intros Hin. apply broadcast_sends in Hin. simpl in Hin.
      destruct Hin as [Hin [Ho Hm]]. repeat split; [now apply Htracked | easy | easy].
    + intros [Hc [Ho ->]]. apply broadcast_sends. simpl.
      repeat split; [| easy]. now apply Htracked.
  - rewrite broadcast_clients. simpl. split.
    + intros Hin. apply filter_In in Hin.
      destruct Hin as [_ Hin]. now destruct (fails (sockets w) ws).
    + intros Hf. apply filter_In.
      split; [apply Htracked; now left | now rewrite Hf].
Qed.

(** X9. When a tracked socket closes or errors it is taken out of the
    tracked set and nothing else happens: the other sockets stay tracked in
    their order, the storage is untouched, nothing is broadcast; the error
    is logged. The next broadcast sends that socket nothing. *)
Theorem closed_socket_is_forgotten (ws : nat) (w : World) :
  let w1 := world_after (on_close ws w) in
  clients w1 = filter (fun c => negb (Nat.eqb ws c)) (clients w)
  /\ ~ In ws (clients w1)
  /\ (forall c, c <> ws -> (In c (clients w1) <-> In c (clients w)))
  /\ storage w1 = storage w
  /\ events (on_close ws w) = []
  /\ world_after (on_error ws w) = w1
  /\ events (on_error ws w) = [Ev_console_error "WebSocket error:"]
  /\ (forall message, ~ In (Ev_send ws message) (events (broadcast w1))).
Proof.
  intros w1. subst w1. unfold on_close, on_error, bind, emit, clients_delete,
                       world_after, events. simpl.
  assert (Hgone : ~ In ws (filter (fun c => negb (Nat.eqb ws c)) (clients w))).
  { intros Hin. apply filter_In in Hin. destruct Hin as [_ Hin].
    now rewrite Nat.eqb_refl in Hin. }
  repeat match goal with |- _ /\ _ => split end; try reflexivity.
  - exact Hgone.
  - intros c Hne. split.
    + intros Hin. apply filter_In in Hin. tauto.
    + intros Hin. apply filter_In. split; [easy |].
      destruct (Nat.eqb ws c) eqn:E; [| easy].
      apply Nat.eqb_eq in E. congruence.
  - intros message Hin. fold (events (broadcast
        {| storage := storage w;
           clients := filter (fun c => negb (Nat.eqb ws c)) (clients w);
           sockets := sockets w |})) in Hin.
    apply broadcast_sends in Hin. simpl in Hin. tauto.
Qed.

(** X10. The POST and PATCH handlers read the body through its fields
    [name], [category] and [completed] only: two object bodies that agree on
    these three are handled alike, whatever else they hold, an [id]
    included. *)
Theorem handlers_read_three_fields_only
        (w : World) (seg : string) (ps1 ps2 : list (string * JSON)) :
  prop "name" ps1 = prop "name" ps2 ->
  prop "category" ps1 = prop "category" ps2 ->
  prop "completed" ps1 = prop "completed" ps2 ->
  post_items JSON_stringify (JObject ps1) w
  = post_items JSON_stringify (JObject ps2) w
  /\ patch_item JSON_stringify seg (JObject ps1) w
     = patch_item JSON_stringify seg (JObject ps2) w.
Proof.
  intros Hn Hc Hb.
  unfold post_items, patch_item, insertItemSchema_safeParse,
    updateItemSchema_safeParse.
  now rewrite Hn, Hc, Hb.
Qed.

(** X11. The PATCH handler checks in this order: the id, the body, the
    storage. Once the id parses, a body that is not an object, or whose
    [completed] is there and not a boolean, or whose [category] or [name] is
    there and not text ([null] included), is answered 400 "Invalid update
    data" whether the id is stored or not; the storage is not called and
    nothing changes. *)
Theorem patch_rejects_wrong_types_before_lookup
        (w : World) (seg : string) (k : Z) (req_body : JSON) :
  parseInt seg = Some k ->
  is_object req_body
  && boolean_or_absent (field "completed" req_body)
  && text_or_absent (field "category" req_body)
  && text_or_absent (field "name" req_body) = false ->
  patch_item JSON_stringify seg req_body w
  = (res_status_json 400 "Invalid update data", w, []).
Proof.
  intros Hp Hv. rewrite patch_item_run, Hp.
  assert (Hnone : updateItemSchema_safeParse req_body = None).
  { unfold updateItemSchema_safeParse, field in *.
    destruct req_body as [| | | | | ps]; try reflexivity. simpl in Hv.
    destruct (prop "completed" ps) as [[| | | | |] |]; simpl in *;
      try reflexivity;
      destruct (prop "category" ps) as [[| | | | |] |]; simpl in *;
        try reflexivity;
        destruct (prop "name" ps) as [[| | | | |] |]; simpl in *;
          try reflexivity; discriminate. }
  now rewrite Hnone.
Qed.

Lemma set_same (k : Z) (v : Item) (m : JsMap.t) :
  JsMap.get k m = Some v -> JsMap.set k v m = m.
Proof.
  induction m as [| [k0 v0] m IH]; simpl; [discriminate |].
  destruct (k0 =? k) eqn:E.
  - apply Z.eqb_eq in E. now intros [= ->]; subst.
  - intros H. now rewrite IH.
Qed.

(** X12. A PATCH of a stored id with an object body that has none of the
    three fields succeeds: the answer is the item as it is, the storage is
    exactly as before, and the unchanged list is still broadcast once. *)
Theorem patch_without_fields_changes_nothing_but_broadcasts
        (w : World) (seg : string) (k : Z) (item : Item)
        (ps : list (string * JSON)) :
  parseInt seg = Some k ->
  JsMap.get k (items (storage w)) = Some item ->
  prop "completed" ps = None ->
  prop "category" ps = None ->
  prop "name" ps = None ->
  let r := patch_item JSON_stringify seg (JObject ps) w in
  response r = res_json_item item
  /\ storage (world_after r) = storage w
  /\ count is_broadcast (events r) = 1%nat
  /\ filter is_stringify (events r) = [Ev_stringify (snapshot w)].
Proof.
  intros Hp Hget Hb Hc Hn r. subst r.
  rewrite patch_item_run, Hp. unfold updateItemSchema_safeParse.
  rewrite Hb, Hc, Hn. simpl. rewrite Hget.
  assert (Hm : Storage.merge item (mkUpdateItemData None None None) = item)
    by now destruct item.
  assert (Hs : snd (Storage.updateItem k (mkUpdateItemData None None None)
                                       (storage w)) = storage w).
  { unfold Storage.updateItem. rewrite Hget, Hm. simpl.
    rewrite set_same by easy. now destruct (storage w). }
  rewrite Hs, with_storage_same, Hm.
  unfold response, world_after at 1, events. simpl.
  repeat split.
  - apply broadcast_storage.
  - rewrite count_cons. simpl.
    exact (count_broadcast_run JSON_stringify w).
  - exact (broadcast_stringify w).
Qed.

End WithSerializer.

End ServerFacts.

(* ===================================================================== *)
(** * Numbers in paths *)
(* ===================================================================== *)

Module ParseIntFacts.
Import ParseInt JsString.

Lemma byte_digit_char (d : Z) :
  0 <= d < 10 -> byte (digit_char d) = 48 + d.
Proof.
  intros H. unfold byte, digit_char.
  rewrite N_ascii_embedding by lia. lia.
Qed.

Lemma digit_value_byte (c : ascii) :
  48 <= byte c <= 57 -> digit_value c = Some (byte c - 48).
Proof.
  intros H. unfold digit_value.
  replace ((48 <=? byte c) && (byte c <=? 57)) with true; [easy |].
  symmetry. apply andb_true_intro. split; lia.
Qed.

Lemma digit_value_digit_char (d : Z) :
  0 <= d < 10 -> digit_value (digit_char d) = Some d.
Proof.
  intros H. rewrite digit_value_byte; rewrite byte_digit_char by easy;
    [f_equal |]; lia.
Qed.

Lemma digits_cons_digit (c : ascii) (s : string) (acc : option Z) (d : Z) :
  digit_value c = Some d -> d < 10 ->
  digits 10 (String c s) acc
  = digits 10 s (Some (match acc with Some a => a * 10 + d | None => d end)).
Proof.
  intros Hd Hlt. cbn [digits]. rewrite Hd.
  now replace (d <? 10) with true by (symmetry; lia).
Qed.

Lemma decimal_S (f : nat) (n : Z) (rest : string) :
  decimal (S f) n rest
  = if n <? 10 then String (digit_char n) rest
    else decimal f (n / 10) (String (digit_char (n mod 10)) rest).
Proof. reflexivity. Qed.

(** The digits of [n] read back as [n]. *)
Lemma digits_decimal (f : nat) (n : Z) (rest : string) :
  0 <= n < 2 ^ Z.of_nat (S f) ->
  digits 10 (decimal (S f) n rest) None = digits 10 rest (Some n).
Proof.
  revert n rest. induction f as [| f IH]; intros n rest Hn.
  - cbn [decimal]. change (2 ^ Z.of_nat 1) with 2 in Hn.
    replace (n <? 10) with true by (symmetry; lia).
    now rewrite (digits_cons_digit _ _ _ n)
      by (try apply digit_value_digit_char; lia).
  - rewrite decimal_S. destruct (n <? 10) eqn:E.
    + now rewrite (digits_cons_digit _ _ _ n)
        by (try apply digit_value_digit_char; lia).
    + apply Z.ltb_ge in E.
      assert (Hdiv : 0 <= n / 10 < 2 ^ Z.of_nat (S f)).
      { split; [apply Z.div_pos; lia |].
        apply Z.div_lt_upper_bound; [lia |].
        replace (Z.of_nat (S (S f))) with (Z.succ (Z.of_nat (S f))) in Hn by lia.
        rewrite Z.pow_succ_r in Hn by lia. lia. }
      rewrite IH by easy.
      rewrite (digits_cons_digit _ _ _ (n mod 10))
        by (try apply digit_value_digit_char;
            pose proof (Z.mod_pos_bound n 10); lia).
      do 2 f_equal. pose proof (Z.div_mod n 10). lia.
Qed.

Lemma decimal_app (f : nat) (n : Z) (rest suffix : string) :
  (decimal f n rest ++ suffix)%string = decimal f n (rest ++ suffix)%string.
Proof.
  revert n rest. induction f as [| f IH]; intros n rest; cbn [decimal];
    [easy |].
  destruct (n <? 10); [easy |]. now rewrite IH.
Qed.

(** The numeral starts with a digit, and a second character that belongs
    to it is a digit too. *)
Lemma decimal_shape (f : nat) (n : Z) (rest : string) :
  0 <= n ->
  exists c tail,
    decimal (S f) n rest = String c tail
    /\ 48 <= byte c <= 57
    /\ (tail = rest
        \/ exists c2 tail2, tail = String c2 tail2 /\ 48 <= byte c2 <= 57).
Proof.
  revert n rest. induction f as [| f IH]; intros n rest Hn.
  - cbn [decimal]. destruct (n <? 10) eqn:E.
    + exists (digit_char n), rest. split; [easy |]. apply Z.ltb_lt in E.
      rewrite byte_digit_char by lia. split; [lia | now left].
    + exists (digit_char (n mod 10)), rest. split; [easy |].
      pose proof (Z.mod_pos_bound n 10).
      rewrite byte_digit_char by lia. split; [lia | now left].
  - rewrite decimal_S. destruct (n <? 10) eqn:E.
    + exists (digit_char n), rest. split; [easy |]. apply Z.ltb_lt in E.
      rewrite byte_digit_char by lia. split; [lia | now left].
    + destruct (IH (n / 10) (String (digit_char (n mod 10)) rest))
        as [c [tail [Hd [Hc Ht]]]]; [apply Z.div_pos; lia |].
      exists c, tail. split; [easy |]. split; [easy |]. right.
      destruct Ht as [-> | Ht]; [| easy].
      exists (digit_char (n mod 10)), rest. split; [easy |].
      pose proof (Z.mod_pos_bound n 10). rewrite byte_digit_char by lia. lia.
Qed.

Lemma trimStart_ascii (c : ascii) (s : string) :
  is_ws1 (byte c) = false -> byte c < 128 ->
  trimStart (String c s) = String c s.
Proof.
  intros Hw Hc. cbn [trimStart]. rewrite Hw.
  assert (H2 : forall b, is_ws2 (byte c) b = false).
  { intros b. unfold is_ws2. replace (byte c =? 194) with false; [easy |].
    symmetry. apply Z.eqb_neq. lia. }
  assert (H3 : forall b d, is_ws3 (byte c) b d = false).
  { intros b d. unfold is_ws3.
    replace (byte c =? 225) with false by (symmetry; apply Z.eqb_neq; lia).
    replace (byte c =? 226) with false by (symmetry; apply Z.eqb_neq; lia).
    replace (byte c =? 227) with false by (symmetry; apply Z.eqb_neq; lia).
    replace (byte c =? 239) with false by (symmetry; apply Z.eqb_neq; lia).
    reflexivity. }
  destruct s as [| b [| d s]]; rewrite ?H2, ?H3; reflexivity.
Qed.

Ltac each_ascii c :=
  destruct c as [[] [] [] [] [] [] [] []].

Lemma sign_digit (c : ascii) (s : string) :
  48 <= byte c <= 57 -> sign (String c s) = (1, String c s).
Proof.
  intros H. each_ascii c; try reflexivity; unfold byte in H; simpl in H; lia.
Qed.

Lemma radix_decimal (c : ascii) (tail : string) :
  48 <= byte c <= 57 ->
  ends_number tail = true
  \/ (exists c2 tail2, tail = String c2 tail2 /\ 48 <= byte c2 <= 57) ->
  radix (String c tail) = (10, String c tail).
Proof.
  intros Hc Ht.
  assert (Hx : match tail with
               | EmptyString => True
               | String c2 _ => byte c2 <> 120 /\ byte c2 <> 88
               end).
  { destruct tail as [| c2 tail2]; [easy |].
    destruct Ht as [Ht | [c3 [t3 [[= <- <-] Hd]]]]; [| lia].
    simpl in Ht. apply andb_prop in Ht. destruct Ht as [Ht H88].
    apply andb_prop in Ht. destruct Ht as [_ H120].
    apply negb_true_iff, Z.eqb_neq in H88, H120. easy. }
  clear Ht. destruct tail as [| c2 tail2].
  - each_ascii c; reflexivity.
  - each_ascii c; try reflexivity.
    each_ascii c2; try reflexivity; unfold byte in Hx; simpl in Hx;
      destruct Hx; congruence.
Qed.

Lemma digits_stop (suffix : string) (acc : option Z) :
  ends_number suffix = true -> digits 10 suffix acc = acc.
Proof.
  destruct suffix as [| c s]; [easy |]. intros H. simpl in H.
  apply andb_prop in H. destruct H as [H _].
  apply andb_prop in H. destruct H as [H _]. apply negb_true_iff in H.
  cbn [digits]. unfold digit_value. rewrite H.
  destruct ((97 <=? byte c) && (byte c <=? 122)) eqn:E1.
  - replace (byte c - 97 + 10 <? 10) with false; [easy |].
    symmetry. apply Z.ltb_ge. apply andb_prop in E1. lia.
  - destruct ((65 <=? byte c) && (byte c <=? 90)) eqn:E2; [| easy].
    replace (byte c - 65 + 10 <? 10) with false; [easy |].
    symmetry. apply Z.ltb_ge. apply andb_prop in E2. lia.
Qed.

Lemma fuel_enough (n : Z) :
  0 <= n -> 0 <= n < 2 ^ Z.of_nat (S (Z.to_nat (Z.log2 n))).
Proof.
  intros Hn. split; [easy |].
  replace (Z.of_nat (S (Z.to_nat (Z.log2 n)))) with (Z.succ (Z.log2 n))
    by (pose proof (Z.log2_nonneg n); lia).
  destruct (Z.eq_dec n 0) as [-> | Hne]; [easy |].
  apply Z.log2_spec. lia.
Qed.

(** The numeral of [n >= 0], followed by something that cannot continue
    it, parses to [n]. *)
Lemma parseInt_decimal (n : Z) (suffix : string) :
  0 <= n -> ends_number suffix = true ->
  let s := decimal (S (Z.to_nat (Z.log2 n))) n suffix in
  trimStart s = s /\ sign s = (1, s) /\ radix s = (10, s)
  /\ digits 10 s None = Some n.
Proof.
  intros Hn Hs s.
  destruct (decimal_shape (Z.to_nat (Z.log2 n)) n suffix Hn)
    as [c [tail [Hd [Hc Ht]]]].
  fold s in Hd. repeat split.
  - rewrite Hd. apply trimStart_ascii; [| lia].
    unfold is_ws1. apply orb_false_intro; [apply andb_false_intro2 |];
      [apply Z.leb_gt | apply Z.eqb_neq]; lia.
  - rewrite Hd. now apply sign_digit.
  - rewrite Hd. apply radix_decimal; [easy |].
    destruct Ht as [-> | Ht]; [now left | now right].
  - unfold s. rewrite digits_decimal by now apply fuel_enough.
    now apply digits_stop.
Qed.

(** The numeral of any integer, followed by something that cannot continue
    it, parses to the integer. *)
Lemma parseInt_numeral (n : Z) (suffix : string) :
  ends_number suffix = true ->
  parseInt (Number_toString n ++ suffix) = Some n.
Proof.
  intros Hs. unfold Number_toString, parseInt, ParseInt.parseInt.
  destruct (n <? 0) eqn:E.
  - apply Z.ltb_lt in E. cbn [append].
    rewrite decimal_app. cbn [append].
    destruct (parseInt_decimal (- n) suffix) as [H1 [H2 [H3 H4]]];
      [lia | easy |].
    rewrite (trimStart_ascii "-"%char); [| reflexivity | reflexivity].
    cbn [sign]. rewrite H3, H4. cbn [option_map]. f_equal. lia.
  - apply Z.ltb_ge in E. rewrite decimal_app. cbn [append].
    destruct (parseInt_decimal n suffix) as [H1 [H2 [H3 H4]]]; [lia | easy |].
    rewrite H1, H2, H3, H4. cbn [option_map]. f_equal. lia.
Qed.

Lemma append_empty (s : string) : (s ++ EmptyString)%string = s.
Proof. induction s as [| c s IH]; simpl; [easy | now rewrite IH]. Qed.

Lemma parseInt_Number_toString (n : Z) : parseInt (Number_toString n) = Some n.
Proof.
  rewrite <- (append_empty (Number_toString n)). now apply parseInt_numeral.
Qed.


End ParseIntFacts.


(* ===================================================================== *)
(** * The client *)
(* ===================================================================== *)

Module TrimFacts.
Import ParseInt JsString.

(** [trimStart] one step unfolded. *)
Lemma trimStart_cons (a : ascii) (s1 : string) :
  trimStart (String a s1)
  = if is_ws1 (byte a) then trimStart s1
    else
      match s1 with
      | String b s2 =>
          if is_ws2 (byte a) (byte b) then trimStart s2
          else
            match s2 with
            | String c s3 =>
                if is_ws3 (byte a) (byte b) (byte c) then trimStart s3
                else String a s1
            | EmptyString => String a s1
            end
      | EmptyString => String a s1
      end.
Proof. reflexivity. Qed.

(** What [trimStart] returns does not start with white space. *)
Lemma trimStart_idempotent (s : string) :
  trimStart (trimStart s) = trimStart s.
Proof.
  assert (H : forall n s, (String.length s <= n)%nat ->
                          trimStart (trimStart s) = trimStart s).
  { clear s. induction n as [| n IH]; intros s Hn.
    - destruct s; [reflexivity | simpl in Hn; lia].
    - destruct s as [| a s1]; [reflexivity |]. simpl in Hn.
      rewrite (trimStart_cons a s1).
      destruct (is_ws1 (byte a)) eqn:E1; [apply IH; lia |].
      destruct s1 as [| b s2];
        [now rewrite trimStart_cons, E1 |].
      simpl in Hn.
      destruct (is_ws2 (byte a) (byte b)) eqn:E2; [apply IH; lia |].
      destruct s2 as [| c s3];
        [now rewrite trimStart_cons, E1, E2 |].
      simpl in Hn.
      destruct (is_ws3 (byte a) (byte b) (byte c)) eqn:E3; [apply IH; lia |].
      now rewrite trimStart_cons, E1, E2, E3. }
  now apply (H (String.length s)).
Qed.

(** [trim] leaves nothing exactly of the strings of white space. *)
Lemma trim_empty (s : string) :
  trim s = EmptyString <-> all_ws s = true.
Proof.
  unfold trim, all_ws. pose proof (trimStart_idempotent s) as Hi.
  destruct (trimStart s) as [| c t] eqn:E.
  - simpl. tauto.
  - cbn [trimEnd]. unfold all_ws. rewrite Hi. split; discriminate.
Qed.

Lemma trim_eqb_empty (s : string) :
  String.eqb (trim s) EmptyString = all_ws s.
Proof.
  destruct (all_ws s) eqn:E.
  - apply String.eqb_eq. now apply trim_empty.
  - apply String.eqb_neq. intros H. apply trim_empty in H. congruence.
Qed.

End TrimFacts.

Module ClientFacts.
Import JsString Client TrimFacts HandlerFacts ServerFacts.

Section WithBuiltins.

Variable JSON_stringify : Message -> string.
Variable toLowerCase : string -> string.

(** X14. The add form sends nothing for a name that is empty or white
    space only. For any other name it sends one POST to [/api/items] whose
    body the server accepts: the item created has the name exactly as it
    was typed, not trimmed, the category the classifier gives, which is one
    of the nine keys, and is not completed. *)
Theorem onSubmit_sends_a_valid_create (name : string) (w : World) :
  match onSubmit toLowerCase name with
  | None => all_ws name = true
  | Some req =>
      all_ws name = false
      /\ method req = "POST"
      /\ url req = "/api/items"
      /\ exists body,
          data req = Some body
          /\ response (post_items JSON_stringify body w)
             = res_json_item
                 (mkItem (currentId (storage w)) name
                         (Categories.categorizeItem toLowerCase name) false)
          /\ In (Categories.categorizeItem toLowerCase name)
                (map fst Categories.categories)
  end.
Proof.
  unfold onSubmit. rewrite trim_eqb_empty.
  destruct (all_ws name); [reflexivity |].
  repeat split. eexists. split; [reflexivity |]. split.
  - now rewrite post_items_run.
  - unfold Categories.categorizeItem.
    destruct (CategoriesFacts.for_of_key (toLowerCase name)
                                         Categories.categories) as [H | ->];
      [easy |].
    simpl. tauto.
Qed.

Lemma patch_stored_item (w : World) (item : Item) (d : UpdateItemData)
      (ps : list (string * JSON)) :
  JsMap.get (id item) (items (storage w)) = Some item ->
  updateItemSchema_safeParse (JObject ps) = Some d ->
  let r := patch_item JSON_stringify (Number_toString (id item)) (JObject ps) w in
  response r = res_json_item (Storage.merge item d)
  /\ storage (world_after r)
     = snd (Storage.updateItem (id item) d (storage w)).
Proof.
  intros Hget Hd r. subst r.
  rewrite patch_item_run, ParseIntFacts.parseInt_Number_toString, Hd, Hget.
  unfold response, world_after. simpl. split; [easy |].
  apply (broadcast_storage JSON_stringify).
Qed.



End WithBuiltins.

End ClientFacts.



Module CardsFacts.
Import Client.

Lemma groupedItems_map (items : list Item) :
  groupedItems items
  = map (fun key => (key, of_category items key)) orderedCategories.
Proof. reflexivity. Qed.

Lemma obj_get_map (g : string -> list Item) (keys : list string)
      (key : string) :
  obj_get (map (fun k => (k, g k)) keys) key
  = if existsb (String.eqb key) keys then g key else [].
Proof.
  induction keys as [| k keys IH]; simpl; [easy |].
  rewrite (String.eqb_sym key k).
  destruct (String.eqb_spec k key) as [-> | Hne]; simpl; [easy | apply IH].
Qed.

Lemma existsb_self (key : string) (keys : list string) :
  In key keys -> existsb (String.eqb key) keys = true.
Proof.
  intros H. apply existsb_exists. exists key. now rewrite String.eqb_refl.
Qed.

Lemma nonempty_filter {A : Type} (p : A -> bool) (l : list A) :
  (0 <? Z.of_nat (List.length (filter p l))) = existsb p l.
Proof.
  induction l as [| x l IH]; simpl; [easy |].
  destruct (p x); simpl; [| easy]. apply Z.ltb_lt. lia.
Qed.

(** The cards, without the object in between. *)
Lemma cards_map (items : list Item) :
  cards items
  = map (fun key => (key, of_category items key))
        (filter (fun key =>
                   existsb (fun item => String.eqb (category item) key) items)
                orderedCategories).
Proof.
  unfold cards. rewrite groupedItems_map.
  rewrite (filter_ext_in
             _ (fun key => existsb (fun item => String.eqb (category item) key)
                                   items)).
  - apply map_ext_in. intros key Hk. apply filter_In in Hk.
    now rewrite obj_get_map, existsb_self.
  - intros key Hk. rewrite obj_get_map, existsb_self by easy.
    apply nonempty_filter.
Qed.

Lemma filter_or_disjoint {A : Type} (p q : A -> bool) (l : list A) :
  (forall x, p x = true -> q x = true -> False) ->
  Permutation (filter (fun x => p x || q x) l) (filter p l ++ filter q l).
Proof.
  intros Hd. induction l as [| x l IH]; simpl; [constructor |].
  destruct (p x) eqn:Ep, (q x) eqn:Eq; simpl.
  - elim (Hd x Ep Eq).
  - now constructor.
  - now apply Permutation_cons_app.
  - exact IH.
Qed.

(** Grouping by distinct keys loses and doubles nothing. *)
Lemma grouping_permutation (items : list Item) (keys : list string) :
  NoDup keys ->
  Permutation (flat_map (of_category items) keys)
              (filter (fun item => existsb (String.eqb (category item)) keys)
                      items).
Proof.
  induction 1 as [| key keys Hnotin Hnd IH]; simpl.
  - now rewrite filter_false.
  - rewrite (filter_or_disjoint
               (fun item => String.eqb (category item) key)
               (fun item => existsb (String.eqb (category item)) keys)).
    + now apply Permutation_app_head.
    + intros item Hk Hks. apply String.eqb_eq in Hk.
      apply existsb_exists in Hks. destruct Hks as [k [Hin Hk']].
      apply String.eqb_eq in Hk'. congruence.
Qed.

Lemma flat_map_drop_empty (items : list Item) (keys : list string) :
  flat_map (of_category items)
           (filter (fun key =>
                      existsb (fun item => String.eqb (category item) key)
                              items) keys)
  = flat_map (of_category items) keys.
Proof.
  induction keys as [| key keys IH]; simpl; [easy |].
  destruct (existsb _ items) eqn:E; simpl; [now rewrite IH |].
  rewrite IH. unfold of_category at 2.
  rewrite <- nonempty_filter in E. apply Z.ltb_ge in E.
  destruct (filter _ items); [easy | simpl in E; lia].
Qed.

Lemma flat_map_snd_map (g : string -> list Item) (keys : list string) :
  flat_map snd (map (fun key => (key, g key)) keys) = flat_map g keys.
Proof. induction keys as [| k keys IH]; simpl; [easy | now rewrite IH]. Qed.

Lemma NoDup_orderedCategories : NoDup orderedCategories.
Proof.
  unfold orderedCategories. simpl.
  repeat (apply NoDup_cons; [simpl; intuition discriminate |]).
  constructor.
Qed.

(** X17. The page shows a card for exactly the categories of the table
    that have items, in the order of the table, and in a card the items of
    that category in the order of the list. Every item whose category is a
    key of the table is shown once; an item with any other category is in
    the list the server sends and is not shown. *)
Theorem cards_show_the_items_of_known_categories (items : list Item) :
  map fst (cards items)
  = filter (fun key =>
              existsb (fun item => String.eqb (category item) key) items)
           orderedCategories
  /\ (forall key shown,
         In (key, shown) (cards items) ->
         In key orderedCategories /\ shown <> []
         /\ shown = of_category items key)
  /\ Permutation
       (flat_map snd (cards items))
       (filter (fun item =>
                  existsb (String.eqb (category item)) orderedCategories)
               items)
  /\ (forall item key shown,
         In (key, shown) (cards items) -> In item shown ->
         In item items /\ category item = key /\ In key orderedCategories).
Proof.
  rewrite cards_map.
  assert (Hin : forall key shown,
             In (key, shown)
                (map (fun key => (key, of_category items key))
                     (filter (fun key =>
                                existsb (fun item =>
                                           String.eqb (category item) key) items)
                             orderedCategories)) ->
             In key orderedCategories /\ shown <> []
             /\ shown = of_category items key).
  { intros key shown H. apply in_map_iff in H.
    destruct H as [k [[= -> <-] Hk]]. apply filter_In in Hk.
    destruct Hk as [Hk He]. repeat split; [easy |].
    rewrite <- nonempty_filter in He. apply Z.ltb_lt in He.
    unfold of_category. destruct (filter _ items); [simpl in He; lia | easy]. }
  repeat match goal with |- _ /\ _ => split end.
  - rewrite map_map. cbn [fst]. apply map_id.
  - exact Hin.
  - rewrite flat_map_snd_map, flat_map_drop_empty.
    apply grouping_permutation, NoDup_orderedCategories.
  - intros item key shown H Hi. apply Hin in H. destruct H as [Hk [_ ->]].
    unfold of_category in Hi. apply filter_In in Hi. destruct Hi as [Hi He].
    apply String.eqb_eq in He. easy.
Qed.

End CardsFacts.

Lemma cards_witness :
  ~ In (mkItem 1 "milk" "dairy" false)
       (flat_map snd (Client.cards [mkItem 1 "milk" "dairy" false;
                                    mkItem 2 "te" "dryck" false])).
Proof.
  intros H. apply in_flat_map in H. destruct H as [[key shown] [Hc Hi]].
  destruct (proj2 (proj2 (proj2
              (CardsFacts.cards_show_the_items_of_known_categories
                 [mkItem 1 "milk" "dairy" false; mkItem 2 "te" "dryck" false])))
              (mkItem 1 "milk" "dairy" false) key shown Hc Hi)
    as [_ [Hk Hin]].
  simpl in Hk. subst key. simpl in Hin. intuition discriminate.
Defined.

Module KeywordFacts.
Import Categories.

(** Every keyword of the table, as a name in lower case, falls into the
    category it is listed under: checked on the table. *)
Lemma keywords_checked :
  forallb (fun entry =>
             forallb (fun kw => String.eqb (for_of categories kw) (fst entry))
                     (snd entry))
          categories = true.
Proof. vm_compute. reflexivity. Qed.

Section WithLowerCase.

Variable toLowerCase : string -> string.

(** X18. A name that is one of the keywords of the table, and that
    lower-casing leaves as it is, is put into the category the keyword is
    listed under: no keyword is caught by a keyword of an earlier category.
    And a name is put into "övrigt" exactly when no keyword of any category
    occurs in its lower-cased form. *)
Theorem keywords_fall_into_their_category (name : string) :
  (forall key keywords,
      In (key, keywords) categories -> In name keywords ->
      toLowerCase name = name ->
      categorizeItem toLowerCase name = key)
  /\ (categorizeItem toLowerCase name = "övrigt" <->
      Forall (no_match (toLowerCase name)) categories).
Proof.
  split.
  - intros key keywords He Hk Hl. unfold categorizeItem. rewrite Hl.
    pose proof keywords_checked as H. rewrite forallb_forall in H.
    specialize (H _ He). rewrite forallb_forall in H.
    specialize (H _ Hk). now apply String.eqb_eq in H.
  - split; [| apply CategoriesFacts.for_of_none].
    unfold categorizeItem, categories. cbn [for_of].
    repeat match goal with
           | |- context [if some_included ?l ?kws then _ else _] =>
               let E := fresh "E" in
               destruct (some_included l kws) eqn:E; [discriminate |]
           end.
    intros _. unfold no_match. repeat constructor; assumption.
Qed.

End WithLowerCase.

End KeywordFacts.

Lemma keywords_fall_into_their_category_witness :
  Categories.categorizeItem Categories.latin1_toLowerCase "nötter" = "snacks".
Proof.
  apply (proj1 (KeywordFacts.keywords_fall_into_their_category
                  Categories.latin1_toLowerCase "nötter")
               "snacks" ["chips"; "kakor"; "godis"; "choklad"; "nötter"]).
  - simpl. auto 10.
  - simpl. auto 10.
  - reflexivity.
Defined.

Module DragAndClearFacts.
Import JsString Client HandlerFacts ServerFacts JsMapFacts StoreFacts.

Section WithSerializer.

Variable JSON_stringify : Message -> string.

Lemma listed_item_is_stored (s : MemStorage) (item : Item) :
  Inv s -> In item (JsMap.values (items s)) ->
  JsMap.get (id item) (items s) = Some item.
Proof.
  intros HI Hin. unfold JsMap.values in Hin. apply in_map_iff in Hin.
  destruct Hin as [[k v] [E He]]. simpl in E. subst v.
  apply In_get_Some; [now apply Inv_NoDup |].
  destruct HI as [_ _ _ Hid]. rewrite Forall_forall in Hid.
  apply Hid in He as Hk. simpl in Hk. now rewrite Hk.
Qed.

(** X19. A drag sends nothing when the item is dropped on nothing, on the
    category it has, or when the dragged element is no item of the list.
    Otherwise, the list being the one of the storage, it sends one PATCH
    that the server accepts and answers with that item moved to the
    category it was dropped on, nothing else of it changed. *)
Theorem drag_moves_the_item_to_the_drop_category
        (w : World) (active_id newCategory : string) :
  Inv (storage w) ->
  let items := JsMap.values (items (storage w)) in
  handleDragEnd items active_id None = None
  /\ match handleDragEnd items active_id (Some newCategory) with
     | None =>
         forall item, In item items -> parseInt active_id = Some (id item) ->
                      category item = newCategory
     | Some req =>
         exists item seg body,
           In item items
           /\ parseInt active_id = Some (id item)
           /\ category item <> newCategory
           /\ req = mkApiRequest "PATCH" ("/api/items/" ++ seg) (Some body)
           /\ response (patch_item JSON_stringify seg body w)
              = res_json_item (mkItem (id item) (name item) newCategory
                                      (completed item))
     end.
Proof.
  intros HI listed. split; [reflexivity |]. unfold handleDragEnd.
  destruct (parseInt active_id) as [k |] eqn:Ep; [| discriminate].
  destruct (find (fun item => id item =? k) listed) as [item |] eqn:Ef.
  - apply find_some in Ef. destruct Ef as [Hin Hk]. apply Z.eqb_eq in Hk.
    pose proof (listed_item_is_stored (storage w) item HI Hin) as Hget.
    destruct (String.eqb_spec (category item) newCategory) as [He | Hne];
      simpl.
    + intros item' Hin' [= Hk'].
      pose proof (listed_item_is_stored (storage w) item' HI Hin') as Hget'.
      rewrite <- Hk', <- Hk, Hget in Hget'. injection Hget' as Heq.
      now subst item'.
    + exists item, (Number_toString k),
        (JObject [("category", JString newCategory)]).
      repeat split; [easy | now rewrite Hk | easy |]. subst k.
      now apply (ClientFacts.patch_stored_item
                   JSON_stringify w item
                   (mkUpdateItemData None (Some newCategory) None)).
  - intros item Hin [= Hk].
    apply (find_none _ _ Ef) in Hin. simpl in Hin.
    rewrite Hk, Z.eqb_refl in Hin. discriminate.
Qed.

(** X20. Clearing the list always succeeds: the answer is 204, the storage
    lists nothing, the empty list is broadcast once. The id counter is not
    set back, so the next item created gets an id greater than every id
    handed out before. *)
Theorem delete_items_clears_but_keeps_the_counter
        (w : World) (insertItem : InsertItem) :
  let r := delete_items JSON_stringify w in
  let s' := storage (world_after r) in
  response r = res_status_end 204
  /\ JsMap.values (items s') = []
  /\ currentId s' = currentId (storage w)
  /\ filter is_stringify (events r) = [Ev_stringify (mkMessage "UPDATE" [])]
  /\ count is_broadcast (events r) = 1%nat
  /\ fst (Storage.createItem insertItem s')
     = Resolved (new_item (currentId (storage w)) insertItem).
Proof.
  intros r s'.
  set (w1 := with_storage w (snd (Storage.deleteAllItems (storage w)))).
  assert (Hrun : r = (res_status_end 204,
                      world_after (broadcastUpdate JSON_stringify w1),
                      Ev_storage OpDeleteAllItems
                      :: events (broadcastUpdate JSON_stringify w1)))
    by apply delete_items_run.
  assert (Hs : s' = storage w1).
  { unfold s'. rewrite Hrun. apply (broadcast_storage JSON_stringify). }
  rewrite Hs, Hrun. repeat split.
  - change (filter is_stringify
              (events (broadcastUpdate JSON_stringify w1))
            = [Ev_stringify (mkMessage "UPDATE" [])]).
    now rewrite (broadcast_stringify JSON_stringify).
  - change (count is_broadcast
              (Ev_storage OpDeleteAllItems
               :: events (broadcastUpdate JSON_stringify w1)) = 1%nat).
    rewrite count_cons. simpl.
    exact (count_broadcast_run JSON_stringify w1).
Qed.

End WithSerializer.

End DragAndClearFacts.

Lemma drag_witness :
  exists item seg body,
    In item (JsMap.values (items two_items))
    /\ parseInt "2" = Some (id item)
    /\ category item <> "mejeri"
    /\ Client.updateCategoryMutation 2 "mejeri"
       = mkApiRequest "PATCH" ("/api/items/" ++ seg) (Some body)
    /\ response (patch_item Examples.stringify seg body Examples.busy)
       = res_json_item (mkItem (id item) (name item) "mejeri" (completed item)).
Proof.
  exact (proj2 (DragAndClearFacts.drag_moves_the_item_to_the_drop_category
                  Examples.stringify Examples.busy "2" "mejeri"
                  (StoreFacts.Inv_lifetime
                     [OpCreateItem (mkInsertItem "mjölk" "mejeri" None);
                      OpCreateItem
                        (mkInsertItem "bröd" "skafferi" (Some true))]))).
Defined.

(* ===================================================================== *)
(** * The further properties at concrete requests *)
(* ===================================================================== *)

(** Clearing [Examples.busy]: what socket 1 is sent is the empty list. *)
Lemma clear_sends_the_empty_list :
  "UPDATE []"
  = Examples.stringify
      (snapshot (world_after (handle Examples.stringify DELETE_items
                                     Examples.busy))).
Proof.
  apply (proj1 (proj2 (ServerFacts.mutation_broadcasts_the_new_list
                         Examples.stringify DELETE_items Examples.busy))
               1%nat "UPDATE []").
  vm_compute. auto 10.
Defined.

(** Socket 3 of [Examples.busy] raises on [send]: it is dropped. *)
Lemma raising_socket_is_dropped :
  ~ In 3%nat
       (clients (world_after (broadcastUpdate Examples.stringify
                                              Examples.busy))).
Proof.
  apply (proj1 (proj2 (ServerFacts.failed_send_drops_the_socket
                         Examples.stringify Examples.busy)) 3%nat).
  - simpl. auto.
  - reflexivity.
Defined.

Lemma other_sockets_stay_after_close :
  In 1%nat (clients (world_after (on_close 2 Examples.busy))).
Proof.
  apply (proj1 (proj2 (proj2 (ServerFacts.closed_socket_is_forgotten
                                Examples.stringify 2 Examples.busy)))
               1%nat).
  - discriminate.
  - simpl. auto.
Defined.

(** An [id] in the body of a POST is not looked at. *)
Lemma posted_id_is_ignored :
  post_items Examples.stringify
             (JObject [("id", JNumber 999); ("name", JString "te");
                       ("category", JString "dryck")]) Examples.fresh
  = post_items Examples.stringify
               (JObject [("name", JString "te");
                         ("category", JString "dryck")]) Examples.fresh.
Proof.
  apply (ServerFacts.handlers_read_three_fields_only
           Examples.stringify Examples.fresh "1"); reflexivity.
Defined.

(** [PATCH /api/items/1] with [{completed: null}] *)
Lemma null_field_is_rejected :
  patch_item Examples.stringify "1" (JObject [("completed", JNull)])
             Examples.busy
  = (res_status_json 400 "Invalid update data", Examples.busy, []).
Proof.
  apply (ServerFacts.patch_rejects_wrong_types_before_lookup
           Examples.stringify Examples.busy "1" 1); reflexivity.
Defined.

(** [PATCH /api/items/1] with [{}] *)
Lemma empty_patch_answers_the_item :
  response (patch_item Examples.stringify "1" (JObject []) Examples.busy)
  = res_json_item (mkItem 1 "mjölk" "mejeri" false).
Proof.
  apply (ServerFacts.patch_without_fields_changes_nothing_but_broadcasts
           Examples.stringify Examples.busy "1" 1
           (mkItem 1 "mjölk" "mejeri" false) []); reflexivity.
Defined.
